(** * gnark: hints, curve dispatch and the quadratic extension gadget

    A shallow embedding of
    - the solver hints of the generated [cs] package for BW6-761
      ([powModulusMinusOne], [ithBit]),
    - the mock polynomial commitment scheme,
    - the curve-dispatch facade of package [groth16]
      ([Verify], [ReadAndVerify], [Prove], [ReadAndProve], [New*]),
    - the in-circuit quadratic extension [fields.E2] ([Mul], [Square]),
    followed by the properties established about them. *)

From Stdlib Require Import ZArith List String Bool Lia Znumtheory Zcong.
From Stdlib Require Import Zmod.
From Stdlib Require Import Ring Setoid Morphisms.
From ExtLib Require Import Structures.Monad Data.Monads.IdentityMonad.
From ExtLib Require Import Data.Monads.OptionMonad.
Import ListNotations.
Import MonadNotation.

Local Open Scope Z_scope.

(** ** Go's built-in notions used by the sources *)

(** [error]: either [nil] or a value made by [errors.New]. *)
Inductive error : Type :=
| nil_error
| errors_New (msg : string).

Definition is_nil (e : error) : bool :=
  match e with nil_error => true | errors_New _ => false end.

(** A call either returns or unwinds with a panic.  [panic(msg)] carries
    the message of the source; the two run-time panics that the dispatch
    code can raise are kept apart from it. *)
Inductive panic_value : Type :=
| panic_msg (msg : string)
| panic_type_assertion      (* x.(T) on a value whose dynamic type is not T *)
| panic_nil_dereference.    (* method call through a nil interface *)

Inductive outcome (A : Type) : Type :=
| Returns (a : A)
| Panics (p : panic_value).
Arguments Returns {A} a.
Arguments Panics {A} p.

#[export] Instance Monad_outcome : Monad outcome :=
  {| ret := fun _ a => Returns a;
     bind := fun _ _ c k =>
       match c with
       | Returns a => k a
       | Panics p => Panics p
       end |}.

(** Go's [int] on the 64-bit targets: two's complement wrap-around. *)
Definition wrap_int (z : Z) : Z := (z + 2 ^ 63) mod 2 ^ 64 - 2 ^ 63.

(** ** Package [fr] of gnark-crypto (bw6-761), as far as the hints use it

    The package is a dependency, not part of the repository.  An
    [fr.Element] is six 64-bit limbs, least significant first, holding a
    residue in Montgomery form: the limbs [z] stand for the field value
    [z * R^-1 mod q] with [R = 2^384].  The limbs are kept here as the
    integer they spell out.  The modulus [q] and the Montgomery constant
    [rInv = R^-1 mod q], which the package carries precomputed, are
    parameters. *)
Module fr.

Definition Limbs : Z := 6.
Definition Bits_per_limb : Z := 64.
Definition R : Z := 2 ^ (Limbs * Bits_per_limb).

Definition Element : Type := Z.

(** [z[i]] *)
Definition limb (z : Element) (i : Z) : Z :=
  Z.land (Z.shiftr z (Bits_per_limb * i)) (Z.ones Bits_per_limb).

(** [fr.Element{}] *)
Definition Zero : Element := 0.

(** [z.IsUint64()]: all limbs but the lowest are zero. *)
Definition IsUint64 (z : Element) : bool :=
  Z.lor (limb z 5) (Z.lor (limb z 4) (Z.lor (limb z 3)
    (Z.lor (limb z 2) (limb z 1)))) =? 0.

(** [z.Bit(i)]: bit [i] of the limbs as they are (no conversion). *)
Definition Bit (z : Element) (i : Z) : Z :=
  let j := i / 64 in
  if Limbs <=? j then 0
  else Z.land (Z.shiftr (limb z j) (i mod 64)) 1.

(** [exponent.BitLen()] and [exponent.Bit(i)] of [math/big]. *)
Definition BitLen (e : Z) : Z :=
  if Z.abs e =? 0 then 0 else Z.log2 (Z.abs e) + 1.

Definition big_Bit (e : Z) (i : Z) : Z := Z.b2z (Z.testbit e i).

Section Field.
Variables q rInv : Z.

(** [fr.Modulus()] *)
Definition Modulus : Z := q.

(** [fr.One()]: 1 in Montgomery form. *)
Definition One : Element := R mod q.

(** [z.FromMont()]: one Montgomery reduction, [z <- z * R^-1 mod q]. *)
Definition FromMont (z : Element) : Element := (z * rInv) mod q.

(** [z.ToMont()]. *)
Definition ToMont (z : Element) : Element := (z * R) mod q.

(** [z.Mul(x, y)]: Montgomery product. *)
Definition Mul (x y : Element) : Element := (x * y * rInv) mod q.

(** [z.Square(x)] *)
Definition Square (x : Element) : Element := Mul x x.

(** [z.Sub(x, y)]: limb-wise subtraction, [q] added back on borrow. *)
Definition Sub (x y : Element) : Element :=
  let d := x - y in
  if d <? 0 then d + q else d.

(** The loop of [Exp]: [for i := k - 1; i >= 0; i-- { z.Square(z);
    if exponent.Bit(i) == 1 { z.Mul(z, &x) } }], by the number [k] of
    iterations left. *)
Fixpoint Exp_loop (x : Element) (exponent : Z) (k : nat) (z : Element)
  : Element :=
  match k with
  | O => z
  | S i =>
      let z := Square z in
      let z := if big_Bit exponent (Z.of_nat i) =? 1 then Mul z x else z in
      Exp_loop x exponent i z
  end.

(** [z.Exp(x, exponent)]: left-to-right square and multiply. *)
Definition Exp (x : Element) (exponent : Z) : Element :=
  if exponent =? 0 then One
  else Exp_loop x exponent (Z.to_nat (BitLen exponent - 1)) x.

(** The field value an element stands for. *)
Definition value (z : Element) : Z := FromMont z.

(** Elements produced by the package are reduced. *)
Definition reduced (z : Element) : Prop := 0 <= z < q.

(** What the package's constants satisfy: [q] fits the six limbs and
    [rInv] inverts [R] modulo [q]. *)
Definition constants_ok : Prop :=
  1 < q < R /\ 0 <= rInv < q /\ (R * rInv) mod q = 1.

End Field.

(** The scalar field of BW6-761 (the base field of BLS12-377). *)
Definition bw6_761_modulus : Z :=
  258664426012969094010652733694893533536393512754914660539884262666720468348340822774968888139573360124440321458177.

Definition bw6_761_rInv : Z :=
  193639650212296069206809223070911922792886794295675586437897404907786751263178459621544185310416431420969770445288.

End fr.

(** ** Package [cs] (generated for bw6-761): the hint functions *)
Module cs.
Import fr.

(** Go slices are shared with the caller: a hint receives the backing
    array of [inputs] and may write to it.  A hint is therefore modelled
    as a function from the contents of the slice to the contents after the
    call together with the returned pair. *)
Definition hintResult : Type := list Element * (Element * error).

Definition inputs_after (r : hintResult) : list Element := fst r.
Definition returned (r : hintResult) : Element * error := snd r.

(** [inputs[i].m()] for a method with pointer receiver that overwrites
    its receiver with [m] of it.  The callers below check [len(inputs)]
    first, so the index is in range. *)
Fixpoint update (i : nat) (m : Element -> Element) (inputs : list Element)
  : list Element :=
  match inputs, i with
  | [], _ => []
  | x :: rest, O => m x :: rest
  | x :: rest, S i' => x :: update i' m rest
  end.

Section Hints.
Variables q rInv : Z.

(** [var qMinusOne big.Int] and the package's [init]:
    [qMinusOne.SetUint64(1); qMinusOne.Sub(fr.Modulus(), &qMinusOne)]. *)
Definition init (qMinusOne : Z) : Z :=
  let qMinusOne := 1 in
  Modulus q - qMinusOne.

Definition qMinusOne : Z := init 0.

Definition powModulusMinusOne (inputs : list Element) : hintResult :=
  if negb (Nat.eqb (List.length inputs) 1) then
    (inputs, (Zero, errors_New "powModulusMinusOne expects one input"))
  else
    let v := Exp q rInv (nth 0 inputs Zero) qMinusOne in
    let one := One q in
    let v := Sub q one v in
    (inputs, (v, nil_error)).

Definition ithBit (inputs : list Element) : hintResult :=
  if negb (Nat.eqb (List.length inputs) 2) then
    (inputs,
     (Zero, errors_New
        "ithBit expects 2 inputs; inputs[0] == value, inputs[1] == bit position"))
  else
    let inputs := update 0 (FromMont q rInv) inputs in
    let inputs := update 1 (FromMont q rInv) inputs in
    if negb (IsUint64 (nth 1 inputs Zero)) then
      (inputs,
       (Zero, errors_New
          "ithBit expects bit position (input[1]) to fit on one word"))
    else if Bit (nth 0 inputs Zero) (limb (nth 1 inputs Zero) 0) =? 0 then
      (inputs, (Zero, nil_error))
    else
      (inputs, (One q, nil_error)).

End Hints.
End cs.

(** ** Package [mockcommitment] (generated for bls377) *)
Module mockcommitment.
Section Mock.
(** [polynomial.Digest], [polynomial.OpeningProof],
    [polynomial.BatchOpeningProofSinglePoint] and [interface{}]. *)
Variables Digest OpeningProof BatchOpeningProofSinglePoint any : Type.

(** [type Scheme struct{}] *)
Inductive Scheme : Type := Scheme_lit.

(** The methods have pointer receivers and never look at the receiver,
    so a nil [*Scheme] serves as well. *)
Definition Verify (s : option Scheme) (d : Digest) (p : OpeningProof)
  (v : any) : bool :=
  true.

Definition BatchVerifySinglePoint (s : option Scheme)
  (point claimedValues commitments : any)
  (batchOpeningProof : BatchOpeningProofSinglePoint) : bool :=
  true.

End Mock.
End mockcommitment.

(** ** Package [groth16]: dispatch on the curve *)
Module groth16.

(** The four per-curve back ends, by the aliases under which the package
    imports them. *)
Inductive backend : Type := bls377 | bls381 | bn256 | bw761.

Definition backend_eqb (a b : backend) : bool :=
  match a, b with
  | bls377, bls377 | bls381, bls381 | bn256, bn256 | bw761, bw761 => true
  | _, _ => false
  end.

(** A value of one of the interface types [Proof], [ProvingKey],
    [VerifyingKey], [frontend.CompiledConstraintSystem]: nil, a pointer
    (itself possibly nil, [None]) to the concrete type of one back end, or
    a value of any other dynamic type. *)
Inductive iface (T : Type) : Type :=
| nil_iface
| ptr (b : backend) (p : option T)
| foreign.
Arguments nil_iface {T}.
Arguments ptr {T} b p.
Arguments foreign {T}.

(** The type assertion of [v] to the pointer type of back end [b]. *)
Definition type_assert {T : Type} (b : backend) (v : iface T)
  : outcome (option T) :=
  match v with
  | ptr b' p => if backend_eqb b b' then Returns p
                else Panics panic_type_assertion
  | _ => Panics panic_type_assertion
  end.

(** [ecc.ID] is a [uint16]. *)
Definition ID : Type := Z.

Local Open Scope monad_scope.

Section Dispatch.
(** The concrete types of the back ends, witnesses, user circuits and
    [io.Reader]s. *)
Variables Proof_ ProvingKey_ VerifyingKey_ R1CS_ Witness_ Circuit Reader
  : Type.

(** The per-curve packages [witness], [groth16] and [cs], generated from
    templates and not among the sources.  [w.m(x)] with a
    pointer receiver on a fresh [w := Witness{}] is given as the witness
    after the call, next to what the call returns. *)
Variable FromPublicAssignment :
  backend -> Circuit -> outcome (Witness_ * error).
Variable FromFullAssignment :
  backend -> Circuit -> outcome (Witness_ * error).
Variable LimitReadFrom :
  backend -> Reader -> Z -> outcome (Reader * Witness_ * (Z * error)).
Variable curve_Verify :
  backend -> option Proof_ -> option VerifyingKey_ -> Witness_ ->
  outcome error.
Variable curve_Prove :
  backend -> option R1CS_ -> option ProvingKey_ -> Witness_ -> bool ->
  outcome (option Proof_ * error).
Variable SizePublicWitness : backend -> option VerifyingKey_ -> outcome Z.
Variable GetNbVariables : backend -> option R1CS_ -> outcome (Z * Z * Z).
(** [GetNbVariables] of a constraint system of a foreign type. *)
Variable foreign_GetNbVariables : outcome (Z * Z * Z).

(** [&<b>.T{}] *)
Variable new_ProvingKey : backend -> ProvingKey_.
Variable new_VerifyingKey : backend -> VerifyingKey_.
Variable new_Proof : backend -> Proof_.
Variable new_R1CS : backend -> R1CS_.

(** The constants of package [ecc]. *)
Variables BN254 BLS12_377 BLS12_381 BW6_761 : ID.

Definition unrecognized {A : Type} : outcome A :=
  Panics (panic_msg "unrecognized R1CS curve type").

Definition not_implemented {A : Type} : outcome A :=
  Panics (panic_msg "not implemented").

(** The four cases of every type switch below have the same body up to
    the back end; the switch is written once, over [ptr b _]. *)
Definition Verify (proof : iface Proof_) (vk : iface VerifyingKey_)
  (publicWitness : Circuit) : outcome error :=
  match proof with
  | ptr b _proof =>
      r <- FromPublicAssignment b publicWitness ;;
      let '(w, err) := r in
      if negb (is_nil err) then ret err
      else
        _vk <- type_assert b vk ;;
        curve_Verify b _proof _vk w
  | _ => unrecognized
  end.

(** The reader is shared with the caller; it is returned as it stands
    after the call. *)
Definition ReadAndVerify (proof : iface Proof_) (vk : iface VerifyingKey_)
  (publicWitness : Reader) : outcome (Reader * error) :=
  match vk with
  | ptr b _vk =>
      size <- SizePublicWitness b _vk ;;
      r <- LimitReadFrom b publicWitness size ;;
      let '(publicWitness, w, (_, err)) := r in
      if negb (is_nil err) then ret (publicWitness, err)
      else
        _proof <- type_assert b proof ;;
        e <- curve_Verify b _proof _vk w ;;
        ret (publicWitness, e)
  | _ => unrecognized
  end.

(** [force ...bool] *)
Definition force_flag (force : list bool) : bool :=
  let _force := false in
  if (0 <? Z.of_nat (List.length force)) then nth 0 force false
  else _force.

Definition Prove (r1cs : iface R1CS_) (pk : iface ProvingKey_)
  (witness : Circuit) (force : list bool)
  : outcome (iface Proof_ * error) :=
  let _force := force_flag force in
  match r1cs with
  | ptr b _r1cs =>
      r <- FromFullAssignment b witness ;;
      let '(w, err) := r in
      if negb (is_nil err) then ret (nil_iface, err)
      else
        _pk <- type_assert b pk ;;
        res <- curve_Prove b _r1cs _pk w _force ;;
        let '(proof, e) := res in
        ret (ptr b proof, e)
  | _ => unrecognized
  end.

(** [r1cs.GetNbVariables()] through the interface. *)
Definition iface_GetNbVariables (r1cs : iface R1CS_)
  : outcome (Z * Z * Z) :=
  match r1cs with
  | nil_iface => Panics panic_nil_dereference
  | ptr b p => GetNbVariables b p
  | foreign => foreign_GetNbVariables
  end.

Definition expectedSize (nbSecret nbPublic : Z) : Z :=
  wrap_int (wrap_int (nbSecret + nbPublic) - 1).

Definition ReadAndProve (r1cs : iface R1CS_) (pk : iface ProvingKey_)
  (witness : Reader) (force : list bool)
  : outcome (Reader * (iface Proof_ * error)) :=
  let _force := force_flag force in
  nb <- iface_GetNbVariables r1cs ;;
  let '(_, nbSecret, nbPublic) := nb in
  let expectedSize := expectedSize nbSecret nbPublic in
  match r1cs with
  | ptr b _r1cs =>
      r <- LimitReadFrom b witness expectedSize ;;
      let '(witness, w, (_, err)) := r in
      if negb (is_nil err) then ret (witness, (nil_iface, err))
      else
        _pk <- type_assert b pk ;;
        res <- curve_Prove b _r1cs _pk w _force ;;
        let '(proof, e) := res in
        ret (witness, (ptr b proof, e))
  | _ => unrecognized
  end.

(** The per-curve [Setup] and [DummySetup] fill the keys they are given
    pointers to and return an error; they are given as the keys after the
    call, next to the error. *)
Variable curve_Setup :
  backend -> option R1CS_ -> outcome (ProvingKey_ * VerifyingKey_ * error).
Variable curve_DummySetup :
  backend -> option R1CS_ -> outcome (ProvingKey_ * error).

Definition Setup (r1cs : iface R1CS_)
  : outcome (iface ProvingKey_ * iface VerifyingKey_ * error) :=
  match r1cs with
  | ptr b _r1cs =>
      r <- curve_Setup b _r1cs ;;
      let '(pk, vk, err) := r in
      if negb (is_nil err) then ret (nil_iface, nil_iface, err)
      else ret (ptr b (Some pk), ptr b (Some vk), nil_error)
  | _ => unrecognized
  end.

Definition DummySetup (r1cs : iface R1CS_)
  : outcome (iface ProvingKey_ * error) :=
  match r1cs with
  | ptr b _r1cs =>
      r <- curve_DummySetup b _r1cs ;;
      let '(pk, err) := r in
      if negb (is_nil err) then ret (nil_iface, err)
      else ret (ptr b (Some pk), nil_error)
  | _ => unrecognized
  end.

(** The [switch curveID] of the four constructors, cases in the order of
    the source. *)
Definition switch_curveID {T : Type} (new : backend -> T) (curveID : ID)
  : outcome (iface T) :=
  if curveID =? BN254 then ret (ptr bn256 (Some (new bn256)))
  else if curveID =? BLS12_377 then ret (ptr bls377 (Some (new bls377)))
  else if curveID =? BLS12_381 then ret (ptr bls381 (Some (new bls381)))
  else if curveID =? BW6_761 then ret (ptr bw761 (Some (new bw761)))
  else not_implemented.

Definition NewProvingKey (curveID : ID) : outcome (iface ProvingKey_) :=
  switch_curveID new_ProvingKey curveID.

Definition NewVerifyingKey (curveID : ID) : outcome (iface VerifyingKey_) :=
  switch_curveID new_VerifyingKey curveID.

Definition NewProof (curveID : ID) : outcome (iface Proof_) :=
  switch_curveID new_Proof curveID.

Definition NewCS (curveID : ID) : outcome (iface R1CS_) :=
  switch_curveID new_R1CS curveID.

End Dispatch.
Section CurveProver.
Variables Proof_ ProvingKey_ R1CS_ Witness_ Wires : Type.

(** The solver of a back end, giving the wire values it reached and its
    error, and the steps of the prover that follow solving (the FFTs and
    the multi-exponentiations). *)
Variable Solve : backend -> option R1CS_ -> Witness_ -> Wires * error.
Variable compute :
  backend -> option R1CS_ -> option ProvingKey_ -> Wires -> Proof_.

(** Modelled from the spec: the per-curve prover [groth16.Prove] of one
    back end, which is generated from a template and is not among the
    sources.  Its first step runs the solver; a solving error ends the
    call, with the error and no proof, unless the force flag is set, in
    which case the remaining steps are carried out on the wire values
    reached and a proof object is returned. *)
Definition spec_curve_Prove (b : backend) (r1cs : option R1CS_)
  (pk : option ProvingKey_) (w : Witness_) (force : bool)
  : outcome (option Proof_ * error) :=
  let '(wireValues, err) := Solve b r1cs w in
  if negb (is_nil err) && negb force then Returns (None, err)
  else Returns (Some (compute b r1cs pk wireValues), nil_error).

End CurveProver.

Section WitnessReader.

(** What is left of a witness stream in the wire format
    [uint32 nbElements | element_0 | element_1 | ...], the header and the
    elements being one item each. *)
Definition stream : Type := list Z.

(** Modelled from the spec: [LimitReadFrom] of the per-curve [witness]
    package, which is generated from a template and is not among the
    sources.  The header, a [uint32], must equal the expected size, and
    then that many elements are read into the witness.  The count returned
    is in items read. *)
Definition spec_LimitReadFrom (b : backend) (r : stream)
  (expectedSize : Z) : outcome (stream * list Z * (Z * error)) :=
  match r with
  | [] => Returns ([], [], (0, errors_New "EOF"))
  | header :: rest =>
      let sliceLen := header mod 2 ^ 32 in
      if negb (sliceLen =? expectedSize) then
        Returns (rest, [], (1, errors_New "invalid witness size"))
      else if Z.of_nat (List.length rest) <? expectedSize then
        Returns ([], rest,
                 (1 + Z.of_nat (List.length rest),
                  errors_New "unexpected EOF"))
      else
        let n := Z.to_nat expectedSize in
        Returns (skipn n rest, firstn n rest,
                 (1 + expectedSize, nil_error))
  end.

End WitnessReader.



Arguments Verify {Proof_ VerifyingKey_ Witness_ Circuit}.
Arguments ReadAndVerify {Proof_ VerifyingKey_ Witness_ Reader}.
Arguments Prove {Proof_ ProvingKey_ R1CS_ Witness_ Circuit}.
Arguments ReadAndProve {Proof_ ProvingKey_ R1CS_ Witness_ Reader}.
Arguments Setup {ProvingKey_ VerifyingKey_ R1CS_}.
Arguments DummySetup {ProvingKey_ R1CS_}.
Arguments NewProvingKey {ProvingKey_}.
Arguments NewVerifyingKey {VerifyingKey_}.
Arguments NewProof {Proof_}.
Arguments NewCS {R1CS_}.
Arguments spec_curve_Prove {Proof_ ProvingKey_ R1CS_ Witness_ Wires}.

End groth16.

(** ** A test double for the back ends

    A small stand-in for the per-curve packages, on which the dispatch can
    be run: constraint systems are their three variable counts, verifying
    keys the size of their public witness, witnesses, assignments and
    proofs lists of integers.  Its solver rejects a witness that contains
    a zero. *)
Module double.
Import groth16.

Definition FromAssignment (b : backend) (c : list Z)
  : outcome (list Z * error) :=
  Returns (c, nil_error).

Definition Solve (b : backend) (r1cs : option (Z * Z * Z)) (w : list Z)
  : list Z * error :=
  (w, if existsb (Z.eqb 0) w then errors_New "unsatisfied constraint"
      else nil_error).

Definition compute (b : backend) (r1cs : option (Z * Z * Z))
  (pk : option unit) (wires : list Z) : list Z :=
  wires.

Definition curve_Prove := spec_curve_Prove Solve compute.

Definition curve_Verify (b : backend) (proof : option (list Z))
  (vk : option Z) (w : list Z) : outcome error :=
  Returns (match proof with
           | Some _ => nil_error
           | None => errors_New "invalid proof"
           end).

Definition GetNbVariables (b : backend) (r1cs : option (Z * Z * Z))
  : outcome (Z * Z * Z) :=
  match r1cs with
  | Some nb => Returns nb
  | None => Panics panic_nil_dereference
  end.

Definition SizePublicWitness (b : backend) (vk : option Z) : outcome Z :=
  match vk with
  | Some n => Returns n
  | None => Panics panic_nil_dereference
  end.

Definition curve_Setup (b : backend) (r1cs : option (Z * Z * Z))
  : outcome (unit * Z * error) :=
  match r1cs with
  | Some (_, _, nbPublic) => Returns (tt, nbPublic - 1, nil_error)
  | None => Panics panic_nil_dereference
  end.

Definition curve_DummySetup (b : backend) (r1cs : option (Z * Z * Z))
  : outcome (unit * error) :=
  match r1cs with
  | Some _ => Returns (tt, nil_error)
  | None => Panics panic_nil_dereference
  end.

End double.

(** ** Package [frontend]: the circuit API, as far as [fields.E2] uses it *)
Module frontend.

(** An argument of type [interface{}]: a [Variable] or a constant. *)
Inductive operand (V : Type) : Type :=
| of_var (v : V)
| of_const (k : Z).
Arguments of_var {V} v.
Arguments of_const {V} k.

(** [frontend.API].  The methods act on the circuit under construction,
    hence the monad. *)
Class API (M : Type -> Type) (V : Type) : Type := {
  Add : operand V -> operand V -> M V;
  Sub : operand V -> operand V -> M V;
  Mul : operand V -> operand V -> M V
}.

(** [frontend.FromInterface]: the [big.Int] behind a constant. *)
Definition FromInterface (k : Z) : Z := k.

(** The value semantics of the API over the scalar field of modulus [q]:
    a variable is the value of its wire, and every method returns the
    value that the constraint it emits forces on the wire it returns. *)
Section Engine.
Variable q : Z.

Definition eval (o : operand Z) : Z :=
  match o with
  | of_var v => v
  | of_const k => k mod q
  end.

Definition engine : API ident Z := {|
  Add := fun a b => mkIdent ((eval a + eval b) mod q);
  Sub := fun a b => mkIdent ((eval a - eval b) mod q);
  Mul := fun a b => mkIdent ((eval a * eval b) mod q)
|}.

End Engine.

(** The further methods of [frontend.API] that [fields] and [sw] call.
    [Inverse] and [AssertIsEqual] emit constraints that not every value
    satisfies. *)
Class API_constrain (M : Type -> Type) (V : Type) : Type := {
  Constant : Z -> M V;
  Inverse : operand V -> M V;
  AssertIsEqual : operand V -> operand V -> M unit
}.

(** The value semantics with failure: a computation ends, with [None],
    at a constraint that no value satisfies.  [Inverse] emits x * z = 1
    for the wire z that it returns, [AssertIsEqual] emits x = y. *)
Section Solver.
Variable q : Z.

Definition solver : API option Z := {|
  Add := fun a b => Some ((eval q a + eval q b) mod q);
  Sub := fun a b => Some ((eval q a - eval q b) mod q);
  Mul := fun a b => Some ((eval q a * eval q b) mod q)
|}.

Definition solver_constrain : API_constrain option Z := {|
  Constant := fun k => Some (k mod q);
  Inverse := fun a =>
    let x := eval q a in
    let z := Z.invmod x q in
    if (x * z) mod q =? 1 then Some z else None;
  AssertIsEqual := fun a b =>
    if (eval q a - eval q b) mod q =? 0 then Some tt else None
|}.

End Solver.
End frontend.

(** ** Package [fields]: the quadratic extension in a circuit *)
Module fields.
Import frontend.
Local Open Scope monad_scope.

(** [type E2 struct { A0, A1 frontend.Variable }] *)
Record E2 (V : Type) : Type := mkE2 { A0 : V; A1 : V }.
Arguments mkE2 {V} A0 A1.
Arguments A0 {V} e.
Arguments A1 {V} e.

(** [Extension], of which [E2] reads the field [uSquare] only. *)
Record Extension : Type := mkExtension { uSquare : Z }.

Module E2.
Section Methods.
Context {M : Type -> Type} {V : Type} `{Monad M} `{API M V}.

Local Notation "# x" := (of_var x) (at level 9, format "# x").

(** The methods write their result through the receiver and return it.
    Both read their operands before the first write to the receiver, so
    a receiver that aliases an operand sees the same result; they are
    given as functions to the new [E2]. *)
Definition Mul (e1 e2 : E2 V) (ext : Extension) : M (E2 V) :=
  l1 <- Add #(A0 e1) #(A1 e1) ;;
  l2 <- Add #(A0 e2) #(A1 e2) ;;
  u <- frontend.Mul #l1 #l2 ;;
  ac <- frontend.Mul #(A0 e1) #(A0 e2) ;;
  bd <- frontend.Mul #(A1 e1) #(A1 e2) ;;
  l31 <- Add #ac #bd ;;
  l3 <- Sub #u #l31 ;;
  e_A1 <- frontend.Mul #l3 (of_const 1) ;;
  let buSquare := FromInterface (uSquare ext) in
  l41 <- frontend.Mul #bd (of_const buSquare) ;;
  l4 <- Add #ac #l41 ;;
  e_A0 <- frontend.Mul #l4 (of_const 1) ;;
  ret (mkE2 e_A0 e_A1).

Definition Square (x : E2 V) (ext : Extension) : M (E2 V) :=
  c0 <- Add #(A0 x) #(A1 x) ;;
  let buSquare := FromInterface (uSquare ext) in
  c2 <- frontend.Mul #(A1 x) (of_const buSquare) ;;
  c2 <- Add #c2 #(A0 x) ;;
  c0 <- frontend.Mul #c0 #c2 ;;
  c2 <- frontend.Mul #(A0 x) #(A1 x) ;;
  c2 <- Add #c2 #c2 ;;
  let z_A1 := c2 in
  c2 <- Add #c2 #c2 ;;
  z_A0 <- Add #c0 #c2 ;;
  ret (mkE2 z_A0 z_A1).

Definition Neg (e1 : E2 V) : M (E2 V) :=
  e_A0 <- frontend.Sub (of_const 0) #(A0 e1) ;;
  e_A1 <- frontend.Sub (of_const 0) #(A1 e1) ;;
  ret (mkE2 e_A0 e_A1).

Definition Add (e1 e2 : E2 V) : M (E2 V) :=
  e_A0 <- frontend.Add #(A0 e1) #(A0 e2) ;;
  e_A1 <- frontend.Add #(A1 e1) #(A1 e2) ;;
  ret (mkE2 e_A0 e_A1).

Definition Sub (e1 e2 : E2 V) : M (E2 V) :=
  e_A0 <- frontend.Sub #(A0 e1) #(A0 e2) ;;
  e_A1 <- frontend.Sub #(A1 e1) #(A1 e2) ;;
  ret (mkE2 e_A0 e_A1).

(** [c] is an [interface{}]. *)
Definition MulByFp (e1 : E2 V) (c : operand V) : M (E2 V) :=
  e_A0 <- frontend.Mul #(A0 e1) c ;;
  e_A1 <- frontend.Mul #(A1 e1) c ;;
  ret (mkE2 e_A0 e_A1).

Definition MulByIm (e1 : E2 V) (ext : Extension) : M (E2 V) :=
  let x := A0 e1 in
  e_A0 <- frontend.Mul #(A1 e1) (of_const (uSquare ext)) ;;
  let e_A1 := x in
  ret (mkE2 e_A0 e_A1).

Definition Conjugate (e1 : E2 V) : M (E2 V) :=
  let e_A0 := A0 e1 in
  e_A1 <- frontend.Sub (of_const 0) #(A1 e1) ;;
  ret (mkE2 e_A0 e_A1).

Context `{API_constrain M V}.

Definition Inverse (e1 : E2 V) (ext : Extension) : M (E2 V) :=
  let a0 := A0 e1 in
  let a1 := A1 e1 in
  t0 <- frontend.Mul #(A0 e1) #(A0 e1) ;;
  t1 <- frontend.Mul #(A1 e1) #(A1 e1) ;;
  t1beta <- frontend.Mul #t1 (of_const (uSquare ext)) ;;
  t0 <- frontend.Sub #t0 #t1beta ;;
  t1 <- frontend.Inverse #t0 ;;
  e_A0 <- frontend.Mul #a0 #t1 ;;
  e_A1 <- frontend.Sub (of_const 0) #a1 ;;
  e_A1 <- frontend.Mul #e_A1 #t1 ;;
  ret (mkE2 e_A0 e_A1).

(** The receiver is [e]. *)
Definition MustBeEqual (e other : E2 V) : M unit :=
  AssertIsEqual #(A0 e) #(A0 other) ;;
  AssertIsEqual #(A1 e) #(A1 other).

End Methods.
End E2.
End fields.

(** ** Package [sw]: the Miller loop in a circuit *)
Module sw.
Import frontend fields.
Local Open Scope monad_scope.

(** The point types of the package, declared in files that are not among
    the sources: [G1Affine] holds two variables, [G2Affine] two and
    [G2Proj] three elements of the quadratic extension. *)
Module G1Affine.
Record t (V : Type) : Type := mk { X : V; Y : V }.
Arguments mk {V} X Y.
Arguments X {V} t.
Arguments Y {V} t.
End G1Affine.

Module G2Affine.
Record t (V : Type) : Type := mk { X : E2 V; Y : E2 V }.
Arguments mk {V} X Y.
Arguments X {V} t.
Arguments Y {V} t.
End G2Affine.

Module G2Proj.
Record t (V : Type) : Type := mk { X : E2 V; Y : E2 V; Z : E2 V }.
Arguments mk {V} X Y Z.
Arguments X {V} t.
Arguments Y {V} t.
Arguments Z {V} t.
End G2Proj.

(** [AteLoop] is a [uint64]. *)
Record PairingContext (V : Type) : Type := mkPairingContext {
  AteLoop : Z;
  Extension_ : Extension;
  BTwistCoeff : E2 V
}.
Arguments mkPairingContext {V} AteLoop Extension_ BTwistCoeff.
Arguments AteLoop {V} p.
Arguments Extension_ {V} p.
Arguments BTwistCoeff {V} p.

Record lineEvaluation (V : Type) : Type := mkLineEvaluation {
  r0 : E2 V; r1 : E2 V; r2 : E2 V
}.
Arguments mkLineEvaluation {V} r0 r1 r2.
Arguments r0 {V} l.
Arguments r1 {V} l.
Arguments r2 {V} l.

Section Steps.
Context {M : Type -> Type} {V : Type}
  `{Monad M} `{API M V} `{API_constrain M V}.

Local Notation "# x" := (of_var x) (at level 9, format "# x").

(** [DoubleStep] and [AddMixedStep] write the new point through the
    receiver [p] and the line through [evaluation], all three fields of
    which they assign; they are given as functions to the point and the
    line after the call.  A chained call [D.Add(C, C).Add(D, C)] is two
    assignments to [D]. *)
Definition DoubleStep (p : G2Proj.t V) (pairingInfo : PairingContext V)
  : M (G2Proj.t V * lineEvaluation V) :=
  let ext := Extension_ pairingInfo in
  twoInv <- Constant 2 ;;
  twoInv <- frontend.Inverse #twoInv ;;
  t0 <- E2.Mul (G2Proj.X p) (G2Proj.Y p) ext ;;
  A <- E2.MulByFp t0 #twoInv ;;
  B <- E2.Mul (G2Proj.Y p) (G2Proj.Y p) ext ;;
  C <- E2.Mul (G2Proj.Z p) (G2Proj.Z p) ext ;;
  D <- E2.Add C C ;;
  D <- E2.Add D C ;;
  E <- E2.Mul D (BTwistCoeff pairingInfo) ext ;;
  F <- E2.Add E E ;;
  F <- E2.Add F E ;;
  G <- E2.Add B F ;;
  G <- E2.MulByFp G #twoInv ;;
  H <- E2.Add (G2Proj.Y p) (G2Proj.Z p) ;;
  H <- E2.Mul H H ext ;;
  t1 <- E2.Add B C ;;
  H <- E2.Sub H t1 ;;
  I <- E2.Sub E B ;;
  J <- E2.Mul (G2Proj.X p) (G2Proj.X p) ext ;;
  EE <- E2.Mul E E ext ;;
  K <- E2.Add EE EE ;;
  K <- E2.Add K EE ;;
  p_X <- E2.Sub B F ;;
  p_X <- E2.Mul p_X A ext ;;
  p_Y <- E2.Mul G G ext ;;
  p_Y <- E2.Sub p_Y K ;;
  p_Z <- E2.Mul B H ext ;;
  evaluation_r0 <- E2.Neg H ;;
  evaluation_r1 <- E2.Add J J ;;
  evaluation_r1 <- E2.Add evaluation_r1 J ;;
  let evaluation_r2 := I in
  ret (G2Proj.mk p_X p_Y p_Z,
       mkLineEvaluation evaluation_r0 evaluation_r1 evaluation_r2).

Definition AddMixedStep (p : G2Proj.t V) (a : G2Affine.t V)
  (pairingInfo : PairingContext V) : M (G2Proj.t V * lineEvaluation V) :=
  let ext := Extension_ pairingInfo in
  Y2Z1 <- E2.Mul (G2Affine.Y a) (G2Proj.Z p) ext ;;
  O <- E2.Sub (G2Proj.Y p) Y2Z1 ;;
  X2Z1 <- E2.Mul (G2Affine.X a) (G2Proj.Z p) ext ;;
  L <- E2.Sub (G2Proj.X p) X2Z1 ;;
  C <- E2.Mul O O ext ;;
  D <- E2.Mul L L ext ;;
  E <- E2.Mul L D ext ;;
  F <- E2.Mul (G2Proj.Z p) C ext ;;
  G <- E2.Mul (G2Proj.X p) D ext ;;
  t0 <- E2.Add G G ;;
  H <- E2.Add E F ;;
  H <- E2.Sub H t0 ;;
  t1 <- E2.Mul (G2Proj.Y p) E ext ;;
  p_X <- E2.Mul L H ext ;;
  p_Y <- E2.Sub G H ;;
  p_Y <- E2.Mul p_Y O ext ;;
  p_Y <- E2.Sub p_Y t1 ;;
  p_Z <- E2.Mul E (G2Proj.Z p) ext ;;
  t2 <- E2.Mul L (G2Affine.Y a) ext ;;
  J <- E2.Mul (G2Affine.X a) O ext ;;
  J <- E2.Sub J t2 ;;
  let evaluation_r0 := L in
  evaluation_r1 <- E2.Neg O ;;
  let evaluation_r2 := J in
  ret (G2Proj.mk p_X p_Y p_Z,
       mkLineEvaluation evaluation_r0 evaluation_r1 evaluation_r2).

(** [fields.E12] and the three of its methods that the loop calls live in
    a file that is not among the sources; they are parameters.  [Mul] and
    [MulBy034] are called on the receiver [res] itself. *)
Variable E12 : Type.
Variable E12_SetOne : M E12.
Variable E12_Mul : E12 -> E12 -> Extension -> M E12.
Variable E12_MulBy034 : E12 -> E2 V -> E2 V -> E2 V -> Extension -> M E12.

(** [ateLoopBin[i]], for 0 <= i < 64. *)
Definition ateLoopBin (pairingInfo : PairingContext V) (i : Z) : Z :=
  fr.big_Bit (AteLoop pairingInfo mod 2 ^ 64) i.

(** The body of the loop at index [i]. *)
Definition MillerLoop_body (P : G1Affine.t V) (Q : G2Affine.t V)
  (pairingInfo : PairingContext V) (i : Z) (state : E12 * G2Proj.t V)
  : M (E12 * G2Proj.t V) :=
  let '(res, qProj) := state in
  let ext := Extension_ pairingInfo in
  res <- E12_Mul res res ext ;;
  step <- DoubleStep qProj pairingInfo ;;
  let '(qProj, l) := step in
  l_r0 <- E2.MulByFp (r0 l) #(G1Affine.Y P) ;;
  l_r1 <- E2.MulByFp (r1 l) #(G1Affine.X P) ;;
  res <- E12_MulBy034 res l_r0 l_r1 (r2 l) ext ;;
  if ateLoopBin pairingInfo i =? 0 then ret (res, qProj)
  else
    step <- AddMixedStep qProj Q pairingInfo ;;
    let '(qProj, l) := step in
    l_r0 <- E2.MulByFp (r0 l) #(G1Affine.Y P) ;;
    l_r1 <- E2.MulByFp (r1 l) #(G1Affine.X P) ;;
    res <- E12_MulBy034 res l_r0 l_r1 (r2 l) ext ;;
    ret (res, qProj).

(** [for i := k - 1; i >= 0; i--], by the number [k] of turns left. *)
Fixpoint MillerLoop_loop (P : G1Affine.t V) (Q : G2Affine.t V)
  (pairingInfo : PairingContext V) (k : nat) (state : E12 * G2Proj.t V)
  : M (E12 * G2Proj.t V) :=
  match k with
  | O => ret state
  | S i =>
      state <- MillerLoop_body P Q pairingInfo (Z.of_nat i) state ;;
      MillerLoop_loop P Q pairingInfo i state
  end.

(** The loop starts at [len(ateLoopBin) - 2], that is at bit 62.  What
    [res] points to on entry is overwritten by [SetOne]. *)
Definition MillerLoop (P : G1Affine.t V) (Q : G2Affine.t V)
  (pairingInfo : PairingContext V) : M E12 :=
  res <- E12_SetOne ;;
  qProj_Z_A0 <- Constant 1 ;;
  qProj_Z_A1 <- Constant 0 ;;
  let qProj :=
    G2Proj.mk (G2Affine.X Q) (G2Affine.Y Q) (mkE2 qProj_Z_A0 qProj_Z_A1) in
  state <- MillerLoop_loop P Q pairingInfo 63 (res, qProj) ;;
  ret (fst state).

End Steps.
End sw.

(** ** The values of the quadratic extension

    The values that the methods of [fields.E2] compute under the value
    semantics of the API, and the notions in which their properties are
    stated: equality of values in the field, the twist curve in
    homogeneous projective and in affine coordinates, and a line at a
    point. *)
Module Fp2.
Import frontend fields.

Section Values.
Variable q : Z.
Variable ext : Extension.

Definition add (x y : E2 Z) : E2 Z :=
  unIdent (E2.Add (H0 := engine q) x y).
Definition sub (x y : E2 Z) : E2 Z :=
  unIdent (E2.Sub (H0 := engine q) x y).
Definition neg (x : E2 Z) : E2 Z :=
  unIdent (E2.Neg (H0 := engine q) x).
Definition mul (x y : E2 Z) : E2 Z :=
  unIdent (E2.Mul (H0 := engine q) x y ext).
Definition zero : E2 Z := mkE2 0 0.
Definition one : E2 Z := mkE2 1 0.

(** An element of the base field, in the extension. *)
Definition of_Fp (c : Z) : E2 Z := mkE2 c 0.

(** The same element of the extension. *)
Definition eqv (x y : E2 Z) : Prop :=
  A0 x mod q = A0 y mod q /\ A1 x mod q = A1 y mod q.

(** Y^2 Z = X^3 + b Z^3 *)
Definition on_curve (b : E2 Z) (p : sw.G2Proj.t Z) : Prop :=
  let X := sw.G2Proj.X p in
  let Y := sw.G2Proj.Y p in
  let Z := sw.G2Proj.Z p in
  eqv (mul (mul Y Y) Z) (add (mul (mul X X) X) (mul b (mul (mul Z Z) Z))).

(** y^2 = x^3 + b *)
Definition on_curve_affine (b : E2 Z) (a : sw.G2Affine.t Z) : Prop :=
  let x := sw.G2Affine.X a in
  let y := sw.G2Affine.Y a in
  eqv (mul y y) (add (mul (mul x x) x) b).

(** r0 * y + r1 * x + r2 * z: the line at the point (x : y : z). *)
Definition line_at (l : sw.lineEvaluation Z) (x y z : E2 Z) : E2 Z :=
  add (add (mul (sw.r0 l) y) (mul (sw.r1 l) x)) (mul (sw.r2 l) z).

End Values.
End Fp2.

(** * Properties *)

(** ** Montgomery arithmetic of [fr] *)
Section FrFacts.
Variables q rInv : Z.
Hypothesis constants : fr.constants_ok q rInv.

Local Abbreviation value := (fr.value q rInv).
Local Abbreviation reduced := (fr.reduced q).
Local Abbreviation ToMont := (fr.ToMont q).
Local Abbreviation Mul := (fr.Mul q rInv).
Local Abbreviation One := (fr.One q).

Lemma q_pos : 0 < q.
Proof. destruct constants as [Hq _]. lia. Qed.

Lemma value_reduced z : reduced (value z).
Proof. apply Z.mod_pos_bound, q_pos. Qed.

Lemma Mul_reduced x y : reduced (Mul x y).
Proof. apply Z.mod_pos_bound, q_pos. Qed.

Lemma One_reduced : reduced One.
Proof. apply Z.mod_pos_bound, q_pos. Qed.

Lemma value_ToMont v : value (ToMont v) = v mod q.
Proof.
  destruct constants as (_ & _ & Hinv).
  unfold fr.value, fr.FromMont, fr.ToMont.
  rewrite Z.mul_mod_idemp_l by (pose proof q_pos; lia).
  rewrite <- Z.mul_assoc, <- Z.mul_mod_idemp_r by (pose proof q_pos; lia).
  rewrite Hinv, Z.mul_1_r. reflexivity.
Qed.

Lemma ToMont_value x : ToMont (value x) = x mod q.
Proof.
  destruct constants as (_ & _ & Hinv).
  unfold fr.value, fr.FromMont, fr.ToMont.
  rewrite Z.mul_mod_idemp_l by (pose proof q_pos; lia).
  rewrite <- Z.mul_assoc, (Z.mul_comm rInv), <- Z.mul_mod_idemp_r
    by (pose proof q_pos; lia).
  rewrite Hinv, Z.mul_1_r. reflexivity.
Qed.

(** On reduced elements the limbs and the field value determine each
    other. *)
Lemma value_inj x y : reduced x -> reduced y -> value x = value y -> x = y.
Proof.
  intros Hx Hy E.
  rewrite <- (Z.mod_small x q), <- (Z.mod_small y q) by assumption.
  rewrite <- !ToMont_value, E. reflexivity.
Qed.

Lemma value_Zero : value fr.Zero = 0.
Proof. unfold fr.value, fr.FromMont, fr.Zero. apply Z.mod_0_l.
       pose proof q_pos; lia. Qed.

Lemma value_One : value One = 1.
Proof.
  destruct constants as (Hq & _ & Hinv).
  unfold fr.value, fr.FromMont, fr.One.
  rewrite Z.mul_mod_idemp_l by lia. exact Hinv.
Qed.

Lemma value_Mul x y : value (Mul x y) = (value x * value y) mod q.
Proof.
  pose proof q_pos.
  unfold fr.value, fr.FromMont, fr.Mul.
  rewrite Z.mul_mod_idemp_l by lia.
  rewrite <- Z.mul_mod by lia.
  f_equal. ring.
Qed.

Lemma value_eq_0 x : reduced x -> value x = 0 -> x = 0.
Proof.
  intros Hx E. apply value_inj; [assumption | |].
  - unfold fr.reduced. pose proof q_pos. lia.
  - rewrite E. symmetry. apply value_Zero.
Qed.

(** One turn of the loop of [Exp] moves one more bit of the exponent
    into the power reached so far. *)
Lemma shift_step e i :
  0 <= e -> 0 <= i ->
  e / 2 ^ i = 2 * (e / 2 ^ (Z.succ i)) + fr.big_Bit e i.
Proof.
  intros He Hi. unfold fr.big_Bit.
  rewrite Z.testbit_spec' by assumption.
  replace (2 ^ Z.succ i) with (2 ^ i * 2)
    by (rewrite Z.pow_succ_r by assumption; lia).
  rewrite <- Z.div_div by (try apply Z.pow_pos_nonneg; lia).
  apply Z.div_mod. lia.
Qed.

Lemma big_Bit_cases e i : fr.big_Bit e i = 0 \/ fr.big_Bit e i = 1.
Proof. unfold fr.big_Bit. destruct (Z.testbit e i); auto. Qed.

Lemma Exp_loop_value x e k z :
  0 <= e ->
  value z = value x ^ (e / 2 ^ Z.of_nat k) mod q ->
  value (fr.Exp_loop q rInv x e k z) = value x ^ e mod q.
Proof.
  intros He. revert z. induction k as [|i IH]; intros z Hz.
  - simpl. rewrite Hz. simpl. rewrite Z.div_1_r. reflexivity.
  - cbn [fr.Exp_loop]. apply IH.
    pose proof q_pos as Hq.
    rewrite (shift_step e (Z.of_nat i)) by lia.
    rewrite <- Nat2Z.inj_succ.
    set (h := e / 2 ^ Z.of_nat (S i)) in *.
    assert (0 <= h) by (apply Z.div_pos; [lia | apply Z.pow_pos_nonneg; lia]).
    assert (Hsq : value (fr.Square q rInv z) = value x ^ (2 * h) mod q).
    { unfold fr.Square. rewrite value_Mul, Hz.
      rewrite <- Z.mul_mod by lia.
      f_equal. replace (2 * h) with (h + h) by lia.
      rewrite Z.pow_add_r by lia. reflexivity. }
    destruct (big_Bit_cases e (Z.of_nat i)) as [E|E]; rewrite E; cbn [Z.eqb Pos.eqb].
    + rewrite Z.add_0_r. exact Hsq.
    + rewrite value_Mul, Hsq.
      rewrite Z.mul_mod_idemp_l by lia.
      rewrite Z.pow_add_r, Z.pow_1_r by lia. reflexivity.
Qed.

Lemma div_pow2_log2 e : 0 < e -> e / 2 ^ Z.log2 e = 1.
Proof.
  intros He.
  pose proof (Z.log2_spec e He) as [Hlo Hhi].
  pose proof (Z.log2_nonneg e).
  rewrite Z.pow_succ_r in Hhi by assumption.
  assert (0 < 2 ^ Z.log2 e) by (apply Z.pow_pos_nonneg; lia).
  symmetry. apply (Z.div_unique e _ 1 (e - 2 ^ Z.log2 e)); lia.
Qed.

(** [Exp] raises the field value to the exponent. *)
Lemma value_Exp x e :
  0 <= e -> value (fr.Exp q rInv x e) = value x ^ e mod q.
Proof.
  intros He. unfold fr.Exp.
  destruct (Z.eqb_spec e 0) as [->|Hne].
  - rewrite value_One. simpl. symmetry. apply Z.mod_small.
    destruct constants. lia.
  - apply Exp_loop_value; [assumption|].
    unfold fr.BitLen. rewrite Z.abs_eq by assumption.
    destruct (Z.eqb_spec e 0); [contradiction|].
    replace (Z.log2 e + 1 - 1) with (Z.log2 e) by lia.
    rewrite Z2Nat.id by apply Z.log2_nonneg.
    rewrite div_pow2_log2, Z.pow_1_r by lia.
    symmetry. apply Z.mod_small, value_reduced.
Qed.

Lemma Exp_loop_reduced x e k z :
  reduced z -> reduced (fr.Exp_loop q rInv x e k z).
Proof.
  revert z. induction k as [|i IH]; intros z Hz; [exact Hz|].
  cbn [fr.Exp_loop]. apply IH.
  destruct (_ =? 1); apply Mul_reduced.
Qed.

Lemma Exp_reduced x e : reduced x -> reduced (fr.Exp q rInv x e).
Proof.
  intros Hx. unfold fr.Exp. destruct (e =? 0).
  - apply One_reduced.
  - apply Exp_loop_reduced, Hx.
Qed.

Lemma Sub_self x : fr.Sub q x x = fr.Zero.
Proof. unfold fr.Sub. rewrite Z.sub_diag. reflexivity. Qed.

Lemma Sub_Zero x : 0 <= x -> fr.Sub q x fr.Zero = x.
Proof.
  intros Hx. unfold fr.Sub, fr.Zero. rewrite Z.sub_0_r.
  destruct (Z.ltb_spec x 0); [lia | reflexivity].
Qed.

(** Fermat's little theorem, on elements. *)
Lemma Exp_qMinusOne x :
  Z.prime q -> reduced x -> x <> 0 ->
  fr.Exp q rInv x (cs.qMinusOne q) = One.
Proof.
  intros Hp Hx Hnz.
  apply value_inj; [apply Exp_reduced, Hx | apply One_reduced |].
  destruct constants as (Hq & _).
  unfold cs.qMinusOne, cs.init, fr.Modulus.
  rewrite value_Exp, value_One by lia.
  apply Z.fermat_nz; [assumption|].
  rewrite Z.mod_small by apply value_reduced.
  intros E. apply Hnz, value_eq_0; assumption.
Qed.

Lemma Exp_Zero e : 0 < e -> fr.Exp q rInv fr.Zero e = fr.Zero.
Proof.
  intros He. apply value_inj.
  - apply Exp_reduced. unfold fr.reduced, fr.Zero. pose proof q_pos. lia.
  - unfold fr.reduced, fr.Zero. pose proof q_pos. lia.
  - rewrite value_Exp, value_Zero by lia.
    rewrite Z.pow_0_l by lia. apply Z.mod_0_l. pose proof q_pos. lia.
Qed.

End FrFacts.

(** ** Limbs and bits *)
Section LimbFacts.

Lemma limb_div z i :
  0 <= i -> fr.limb z i = (z / 2 ^ (64 * i)) mod 2 ^ 64.
Proof.
  intros Hi. unfold fr.limb, fr.Bits_per_limb.
  rewrite Z.land_ones, Z.shiftr_div_pow2 by lia. reflexivity.
Qed.

Lemma limb_0_small z : 0 <= z < 2 ^ 64 -> fr.limb z 0 = z.
Proof.
  intros Hz. rewrite limb_div by lia.
  change (2 ^ (64 * 0)) with 1. rewrite Z.div_1_r.
  apply Z.mod_small, Hz.
Qed.

(** On six limbs, [IsUint64] tells whether the integer is below 2^64. *)
Lemma IsUint64_ltb z : 0 <= z < fr.R -> fr.IsUint64 z = (z <? 2 ^ 64).
Proof.
  intros Hz. unfold fr.IsUint64.
  rewrite !limb_div by lia.
  change fr.R with (2 ^ 384) in Hz.
  destruct (Z.ltb_spec z (2 ^ 64)) as [Hlt|Hge].
  - assert (Hs : forall k, 1 <= k -> (z / 2 ^ (64 * k)) mod 2 ^ 64 = 0).
    { intros k Hk. rewrite Z.div_small; [reflexivity|].
      split; [lia|]. apply Z.lt_le_trans with (2 ^ 64); [lia|].
      apply Z.pow_le_mono_r; lia. }
    rewrite !Hs by lia. reflexivity.
  - apply Z.eqb_neq. intros H.
    repeat (apply Z.lor_eq_0_iff in H; destruct H as [? H]).
    cbn [Z.mul Pos.mul Z.pow Z.pow_pos Pos.iter] in *.
    Z.to_euclidean_division_equations. lia.
Qed.

(** On six limbs, [Bit] is the bit of the integer. *)
Lemma Bit_testbit z i :
  0 <= z < fr.R -> 0 <= i -> fr.Bit z i = Z.b2z (Z.testbit z i).
Proof.
  intros Hz Hi. unfold fr.Bit, fr.Limbs.
  change fr.R with (2 ^ 384) in Hz.
  pose proof (Z.div_mod i 64 ltac:(lia)) as Hdm.
  pose proof (Z.mod_pos_bound i 64 ltac:(lia)) as Hr.
  assert (0 <= i / 64) by (apply Z.div_pos; lia).
  destruct (Z.leb_spec 6 (i / 64)) as [Hj|Hj].
  - destruct (Z.eq_dec z 0) as [->|Hnz].
    + rewrite Z.bits_0. reflexivity.
    + rewrite Z.bits_above_log2; [reflexivity | lia |].
      apply Z.lt_le_trans with 384; [|lia].
      apply Z.log2_lt_pow2; lia.
  - change 1 with (Z.ones 1). rewrite Z.land_ones by lia.
    change (2 ^ 1) with 2. rewrite <- Z.bit0_mod.
    rewrite Z.shiftr_spec by lia.
    unfold fr.limb, fr.Bits_per_limb.
    rewrite Z.land_spec, Z.shiftr_spec, Z.ones_spec_low by lia.
    rewrite andb_true_r. do 2 f_equal. lia.
Qed.

End LimbFacts.

(** ** The hints *)

(** Small instance of the package constants used to exercise the
    theorems: q = 11, for which R = 2^384 = 5 and R^-1 = 9 modulo q. *)
Lemma constants_11 : fr.constants_ok 11 9.
Proof. unfold fr.constants_ok. repeat split; try reflexivity; lia. Qed.

Lemma prime_11 : Z.prime 11.
Proof.
  split; [lia|]. intros n Hn [k Hk].
  assert (n = 2 \/ n = 3 \/ n = 4 \/ n = 5 \/ n = 6 \/ n = 7 \/ n = 8 \/
          n = 9 \/ n = 10) as C by lia.
  repeat (destruct C as [->|C]; [lia|]). subst n. lia.
Qed.

Lemma constants_bw6_761 :
  fr.constants_ok fr.bw6_761_modulus fr.bw6_761_rInv.
Proof. unfold fr.constants_ok. repeat split; try reflexivity; discriminate. Qed.

(** What the code computes: on a one-element list [x] the hint returns
    1 - x^(q-1), that is 1 when x = 0 and 0 when x is not zero, with no
    error. *)
Theorem powModulusMinusOne_is_one_minus_pow (q rInv : Z) (x : fr.Element) :
  fr.constants_ok q rInv -> Z.prime q -> fr.reduced q x ->
  let m := fst (cs.returned (cs.powModulusMinusOne q rInv [x])) in
  cs.returned (cs.powModulusMinusOne q rInv [x])
    = ((if x =? 0 then fr.One q else fr.Zero), nil_error)
  /\ fr.value q rInv m = (1 - fr.value q rInv x ^ (q - 1)) mod q
  /\ fr.value q rInv m = (if fr.value q rInv x =? 0 then 1 else 0).
Proof.
  intros Hc Hp Hx m.
  pose proof Hc as (Hq & _).
  assert (Hret : cs.returned (cs.powModulusMinusOne q rInv [x])
                 = ((if x =? 0 then fr.One q else fr.Zero), nil_error)).
  { unfold cs.powModulusMinusOne, cs.returned. cbn [List.length Nat.eqb negb nth snd].
    destruct (Z.eqb_spec x 0) as [->|Hnz].
    - change 0 with fr.Zero at 1. rewrite (Exp_Zero q rInv Hc).
      + rewrite Sub_Zero; [reflexivity|]. apply (One_reduced q rInv Hc).
      + unfold cs.qMinusOne, cs.init, fr.Modulus. lia.
    - rewrite (Exp_qMinusOne q rInv Hc) by assumption.
      rewrite Sub_self. reflexivity. }
  subst m. rewrite Hret. cbn [fst]. split; [reflexivity|].
  destruct (Z.eqb_spec x 0) as [->|Hnz].
  - change (fr.value q rInv 0) with (fr.value q rInv fr.Zero).
    rewrite (value_Zero q rInv Hc), (value_One q rInv Hc).
    rewrite Z.pow_0_l by lia. rewrite Z.sub_0_r, Z.mod_small by lia.
    split; reflexivity.
  - rewrite (value_Zero q rInv Hc).
    assert (Hv : fr.value q rInv x <> 0).
    { intros E. apply Hnz. apply (value_eq_0 q rInv Hc); assumption. }
    split.
    + rewrite <- Zminus_mod_idemp_r.
      rewrite Z.fermat_nz; [rewrite Z.sub_diag; symmetry; apply Z.mod_0_l; lia
                           | assumption |].
      rewrite Z.mod_small by apply (value_reduced q rInv Hc). exact Hv.
    + destruct (Z.eqb_spec (fr.value q rInv x) 0); [contradiction|reflexivity].
Qed.

Lemma powModulusMinusOne_is_one_minus_pow_witness :
  cs.returned (cs.powModulusMinusOne 11 9 [7]) = (fr.Zero, nil_error)
  /\ cs.returned (cs.powModulusMinusOne 11 9 [0]) = (fr.One 11, nil_error).
Proof.
  split.
  - apply (powModulusMinusOne_is_one_minus_pow 11 9 7 constants_11 prime_11).
    unfold fr.reduced. lia.
  - apply (powModulusMinusOne_is_one_minus_pow 11 9 0 constants_11 prime_11).
    unfold fr.reduced. lia.
Defined.

(** C1, the code at the input 0 over the scalar field of BW6-761: the
    comment of [powModulusMinusOne] promises m = a^(modulus-1) - 1, which
    is -1 at a = 0; the function subtracts the other way round,
    [v.Sub(&one, &v)], and returns 1. *)
Lemma powModulusMinusOne_at_zero :
  let q := fr.bw6_761_modulus in
  let rInv := fr.bw6_761_rInv in
  let m := fr.value q rInv
             (fst (cs.returned (cs.powModulusMinusOne q rInv [fr.Zero]))) in
  snd (cs.returned (cs.powModulusMinusOne q rInv [fr.Zero])) = nil_error
  /\ m = 1
  /\ (fr.value q rInv fr.Zero ^ (q - 1) - 1) mod q = q - 1
  /\ m <> (fr.value q rInv fr.Zero ^ (q - 1) - 1) mod q.
Proof.
  intros q rInv m.
  assert (Hm : m = 1) by (vm_compute; reflexivity).
  assert (Hv : fr.value q rInv fr.Zero = 0) by (vm_compute; reflexivity).
  assert (Hd : (0 ^ (q - 1) - 1) mod q = q - 1).
  { rewrite Z.pow_0_l by (vm_compute; reflexivity).
    vm_compute. reflexivity. }
  split; [reflexivity|]. split; [exact Hm|]. rewrite Hv, Hd, Hm.
  split; [reflexivity|]. vm_compute. discriminate.
Qed.

(** Nor is the hint the map "0 when x = 0, -1 otherwise": it returns 1 on
    the input 0. *)
Lemma powModulusMinusOne_not_zero_at_zero :
  let q := fr.bw6_761_modulus in
  let rInv := fr.bw6_761_rInv in
  ~ (forall x : fr.Element, fr.reduced q x ->
       fr.value q rInv (fst (cs.returned (cs.powModulusMinusOne q rInv [x])))
       = if x =? 0 then 0 else q - 1).
Proof.
  intros q rInv H.
  assert (Hz : fr.reduced q 0) by (unfold fr.reduced; subst q; split; [lia|reflexivity]).
  specialize (H 0 Hz).
  vm_compute in H. discriminate H.
Qed.

(** What [ithBit] does on two inputs, in terms of the integers [a'] and
    [n'] that [FromMont] leaves in the slice. *)
Lemma ithBit_two (q rInv : Z) (a n : fr.Element) :
  let a' := fr.FromMont q rInv a in
  let n' := fr.FromMont q rInv n in
  cs.ithBit q rInv [a; n] =
    if negb (fr.IsUint64 n') then
      ([a'; n'],
       (fr.Zero,
        errors_New "ithBit expects bit position (input[1]) to fit on one word"))
    else if fr.Bit a' (fr.limb n' 0) =? 0 then ([a'; n'], (fr.Zero, nil_error))
    else ([a'; n'], (fr.One q, nil_error)).
Proof. reflexivity. Qed.

Lemma ithBit_other_length (q rInv : Z) (inputs : list fr.Element) :
  List.length inputs <> 2%nat ->
  cs.ithBit q rInv inputs =
    (inputs,
     (fr.Zero,
      errors_New
        "ithBit expects 2 inputs; inputs[0] == value, inputs[1] == bit position")).
Proof.
  intros H. unfold cs.ithBit.
  destruct (Nat.eqb_spec (List.length inputs) 2); [contradiction|reflexivity].
Qed.

Lemma length_2_inv {A : Type} (l : list A) :
  List.length l = 2%nat -> exists a n, l = [a; n].
Proof.
  destruct l as [|a [|n [|]]]; try discriminate. intros _. eauto.
Qed.

(** C6: [ithBit] fails exactly when it is not given two inputs or the bit
    position, as an integer, does not fit one word; on [a; n] with a
    position that fits it returns bit [n] of the integer [a], as the field
    element 0 or 1. *)
Theorem ithBit_error_iff_and_bit (q rInv : Z) (inputs : list fr.Element) :
  fr.constants_ok q rInv ->
  (snd (cs.returned (cs.ithBit q rInv inputs)) <> nil_error <->
     (List.length inputs <> 2%nat \/
      exists a n, inputs = [a; n] /\ 2 ^ 64 <= fr.value q rInv n))
  /\ (forall a n, inputs = [a; n] -> fr.value q rInv n < 2 ^ 64 ->
        let bit := Z.testbit (fr.value q rInv a) (fr.value q rInv n) in
        cs.returned (cs.ithBit q rInv inputs)
          = ((if bit then fr.One q else fr.Zero), nil_error)
        /\ fr.value q rInv (fst (cs.returned (cs.ithBit q rInv inputs)))
           = Z.b2z bit).
Proof.
  intros Hc.
  pose proof Hc as (Hq & _).
  assert (Hrange : forall z, 0 <= fr.value q rInv z < fr.R).
  { intros z. pose proof (value_reduced q rInv Hc z) as Hz.
    unfold fr.reduced in Hz. lia. }
  assert (Htwo : forall a n,
    cs.returned (cs.ithBit q rInv [a; n]) =
      if fr.value q rInv n <? 2 ^ 64 then
        ((if Z.testbit (fr.value q rInv a) (fr.value q rInv n)
          then fr.One q else fr.Zero), nil_error)
      else
        (fr.Zero,
         errors_New "ithBit expects bit position (input[1]) to fit on one word")).
  { intros a n. rewrite ithBit_two. cbv zeta.
    change (fr.FromMont q rInv) with (fr.value q rInv).
    rewrite IsUint64_ltb by apply Hrange.
    destruct (Z.ltb_spec (fr.value q rInv n) (2 ^ 64)) as [Hlt|Hge]; [|reflexivity].
    cbn [negb]. rewrite limb_0_small by (pose proof (Hrange n); lia).
    rewrite Bit_testbit by (apply Hrange).
    destruct (Z.testbit _ _); reflexivity. }
  split.
  - split.
    + intros Herr.
      destruct (Nat.eq_dec (List.length inputs) 2) as [Hlen|Hlen]; [|left; exact Hlen].
      right. destruct (length_2_inv _ Hlen) as (a & n & ->).
      exists a, n. split; [reflexivity|].
      rewrite Htwo in Herr.
      destruct (Z.ltb_spec (fr.value q rInv n) (2 ^ 64)); [|assumption].
      exfalso. apply Herr. reflexivity.
    + intros [Hlen | (a & n & -> & Hge)].
      * rewrite ithBit_other_length by assumption. discriminate.
      * rewrite Htwo.
        destruct (Z.ltb_spec (fr.value q rInv n) (2 ^ 64)); [lia|discriminate].
  - intros a n -> Hlt bit. rewrite Htwo.
    destruct (Z.ltb_spec (fr.value q rInv n) (2 ^ 64)); [|lia].
    split; [reflexivity|]. cbn [fst]. subst bit.
    destruct (Z.testbit _ _); cbn [Z.b2z].
    + apply (value_One q rInv Hc).
    + apply (value_Zero q rInv Hc).
Qed.

Lemma ithBit_error_iff_and_bit_witness :
  cs.returned (cs.ithBit 11 9 [fr.ToMont 11 5; fr.ToMont 11 2])
  = (fr.One 11, nil_error).
Proof.
  apply (proj2 (ithBit_error_iff_and_bit 11 9 _ constants_11)
           (fr.ToMont 11 5) (fr.ToMont 11 2) eq_refl).
  vm_compute. reflexivity.
Defined.

(** C5, as the code has it: [powModulusMinusOne] leaves its inputs as they
    are; [ithBit] leaves a list of another length than two as it is, and
    overwrites both elements of a list of two with their [FromMont]
    images, whether or not it then reports the bit position as too large.
    What either hint returns depends on the field values of the inputs
    only. *)
Theorem hints_frame (q rInv : Z) :
  fr.constants_ok q rInv ->
  (forall inputs,
     cs.inputs_after (cs.powModulusMinusOne q rInv inputs) = inputs)
  /\ (forall inputs,
        cs.inputs_after (cs.ithBit q rInv inputs) =
          match inputs with
          | [a; n] => [fr.FromMont q rInv a; fr.FromMont q rInv n]
          | _ => inputs
          end)
  /\ (forall inputs inputs',
        map (fr.value q rInv) inputs = map (fr.value q rInv) inputs' ->
        cs.returned (cs.ithBit q rInv inputs)
        = cs.returned (cs.ithBit q rInv inputs'))
  /\ (forall inputs inputs',
        Forall (fr.reduced q) inputs -> Forall (fr.reduced q) inputs' ->
        map (fr.value q rInv) inputs = map (fr.value q rInv) inputs' ->
        cs.returned (cs.powModulusMinusOne q rInv inputs)
        = cs.returned (cs.powModulusMinusOne q rInv inputs')).
Proof.
  intros Hc. repeat split.
  - intros inputs. unfold cs.powModulusMinusOne.
    destruct (negb _); reflexivity.
  - intros inputs.
    destruct inputs as [|a [|n [|]]]; try reflexivity.
    rewrite ithBit_two. cbv zeta.
    destruct (negb _); [reflexivity|]. destruct (_ =? 0); reflexivity.
  - intros inputs inputs' E.
    assert (Hlen : List.length inputs = List.length inputs')
      by (rewrite <- (length_map (fr.value q rInv) inputs), E;
          apply length_map).
    destruct (Nat.eq_dec (List.length inputs) 2) as [H2|H2].
    + destruct (length_2_inv _ H2) as (a & n & ->).
      rewrite Hlen in H2. destruct (length_2_inv _ H2) as (a' & n' & ->).
      injection E as Ea En. rewrite !ithBit_two. cbv zeta.
      change (fr.FromMont q rInv) with (fr.value q rInv).
      rewrite Ea, En. destruct (negb _); [reflexivity|].
      destruct (_ =? 0); reflexivity.
    + rewrite !ithBit_other_length by congruence. reflexivity.
  - intros inputs inputs' Hr Hr' E. f_equal. f_equal.
    revert inputs' Hr' E. induction Hr as [|x l Hx Hl IH]; intros [|x' l'] Hr' E;
      try discriminate; [reflexivity|].
    injection E as Ex El. inversion Hr' as [|? ? Hx' Hl']; subst.
    f_equal.
    + apply (value_inj q rInv Hc); assumption.
    + apply IH; assumption.
Qed.

Lemma hints_frame_witness :
  cs.inputs_after (cs.ithBit 11 9 [5; 5]) = [1; 1]
  /\ cs.inputs_after (cs.powModulusMinusOne 11 9 [5]) = [5].
Proof.
  pose proof (hints_frame 11 9 constants_11) as (Hp & Hi & _).
  split; [apply (Hi [5; 5]) | apply (Hp [5])].
Defined.

(** C5 as stated fails for [ithBit]: called on [1; 1] (both in Montgomery
    form) over the scalar field of BW6-761, it leaves the integers 1 and 1
    in the slice, which are other elements than the ones passed. *)
Lemma ithBit_overwrites_inputs :
  let q := fr.bw6_761_modulus in
  let rInv := fr.bw6_761_rInv in
  ~ (forall inputs : list fr.Element,
       cs.inputs_after (cs.ithBit q rInv inputs) = inputs)
  /\ cs.inputs_after (cs.ithBit q rInv [fr.One q; fr.One q]) = [1; 1]
  /\ fr.One q <> 1.
Proof.
  intros q rInv. split; [|split].
  - intros H. specialize (H [fr.One q; fr.One q]).
    vm_compute in H. discriminate H.
  - vm_compute. reflexivity.
  - vm_compute. discriminate.
Qed.

(** ** The curve dispatch *)
Section DispatchFacts.
Import groth16.
Variables Proof_ ProvingKey_ VerifyingKey_ R1CS_ Witness_ Circuit Reader
  : Type.
Variable FromPublicAssignment :
  backend -> Circuit -> outcome (Witness_ * error).
Variable FromFullAssignment :
  backend -> Circuit -> outcome (Witness_ * error).
Variable curve_Verify :
  backend -> option Proof_ -> option VerifyingKey_ -> Witness_ ->
  outcome error.
Variable curve_Prove :
  backend -> option R1CS_ -> option ProvingKey_ -> Witness_ -> bool ->
  outcome (option Proof_ * error).

Lemma backend_eqb_eq a b : backend_eqb a b = true <-> a = b.
Proof. destruct a, b; cbn; split; intros; congruence. Qed.

Lemma type_assert_same {T : Type} b (p : option T) :
  type_assert b (ptr b p) = Returns p.
Proof. destruct b; reflexivity. Qed.

Lemma type_assert_other {T : Type} b b' (p : option T) :
  b <> b' -> type_assert b (ptr b' p) = Panics panic_type_assertion.
Proof.
  intros Hne. unfold type_assert.
  destruct (backend_eqb b b') eqn:E; [|reflexivity].
  apply backend_eqb_eq in E. contradiction.
Qed.

Lemma force_flag_omitted : force_flag [] = false.
Proof. reflexivity. Qed.

Lemma force_flag_given f rest : force_flag (f :: rest) = f.
Proof.
  unfold force_flag. cbn [List.length nth].
  destruct (Z.ltb_spec 0 (Z.of_nat (S (List.length rest)))); [reflexivity|lia].
Qed.

(** C2, as the code has it: with a proof of one back end and a verifying
    key of another, [Verify] returns the error of the conversion of the
    public witness when that fails and otherwise panics on the type
    assertion of the key; it never accepts, and the dispatch makes no
    error value of its own.  [Prove] does the same for a constraint
    system of one back end and a proving key of another. *)
Theorem Verify_Prove_mixed_curves (b b' : backend)
  (proof : option Proof_) (vk : option VerifyingKey_)
  (r1cs : option R1CS_) (pk : option ProvingKey_)
  (publicWitness witness : Circuit) (force : list bool) :
  b <> b' ->
  Verify FromPublicAssignment curve_Verify
    (ptr b proof) (ptr b' vk) publicWitness
  = match FromPublicAssignment b publicWitness with
    | Returns (_, nil_error) => Panics panic_type_assertion
    | Returns (_, errors_New msg) => Returns (errors_New msg)
    | Panics p => Panics p
    end
  /\ Prove FromFullAssignment curve_Prove
       (ptr b r1cs) (ptr b' pk) witness force
     = match FromFullAssignment b witness with
       | Returns (_, nil_error) => Panics panic_type_assertion
       | Returns (_, errors_New msg) => Returns (nil_iface, errors_New msg)
       | Panics p => Panics p
       end
  /\ Verify FromPublicAssignment curve_Verify
       (ptr b proof) (ptr b' vk) publicWitness <> Returns nil_error
  /\ (forall p, Prove FromFullAssignment curve_Prove
                  (ptr b r1cs) (ptr b' pk) witness force
                <> Returns (p, nil_error)).
Proof.
  intros Hne.
  assert (HV : Verify FromPublicAssignment curve_Verify
                 (ptr b proof) (ptr b' vk) publicWitness
               = match FromPublicAssignment b publicWitness with
                 | Returns (_, nil_error) => Panics panic_type_assertion
                 | Returns (_, errors_New msg) => Returns (errors_New msg)
                 | Panics p => Panics p
                 end).
  { unfold Verify. cbn [bind Monad_outcome].
    destruct (FromPublicAssignment b publicWitness) as [[w [|msg]]|p];
      cbn [is_nil negb ret Monad_outcome]; try reflexivity.
    rewrite type_assert_other by assumption. reflexivity. }
  assert (HP : Prove FromFullAssignment curve_Prove
                 (ptr b r1cs) (ptr b' pk) witness force
               = match FromFullAssignment b witness with
                 | Returns (_, nil_error) => Panics panic_type_assertion
                 | Returns (_, errors_New msg) =>
                     Returns (nil_iface, errors_New msg)
                 | Panics p => Panics p
                 end).
  { unfold Prove. cbn [bind Monad_outcome].
    destruct (FromFullAssignment b witness) as [[w [|msg]]|p];
      cbn [is_nil negb ret Monad_outcome]; try reflexivity.
    rewrite type_assert_other by assumption. reflexivity. }
  repeat split; try assumption.
  - rewrite HV.
    destruct (FromPublicAssignment b publicWitness) as [[w [|msg]]|p];
      discriminate.
  - intros p. rewrite HP.
    destruct (FromFullAssignment b witness) as [[w [|msg]]|p'];
      discriminate.
Qed.

Variable LimitReadFrom :
  backend -> Reader -> Z -> outcome (Reader * Witness_ * (Z * error)).
Variable SizePublicWitness : backend -> option VerifyingKey_ -> outcome Z.
Variable GetNbVariables : backend -> option R1CS_ -> outcome (Z * Z * Z).
Variable foreign_GetNbVariables : outcome (Z * Z * Z).
(** [len(w)] *)
Variable Witness_len : Witness_ -> Z.

(** C3: leaving [force] out is passing [false]; the per-curve prover is
    called with the flag as given; with the prover of the spec, a witness
    that fails to solve yields a proof object and no error under
    [force = true], and the solving error and no proof object under
    [force = false] or no flag. *)
Theorem Prove_force_flag (Wires : Type)
  (Solve : backend -> option R1CS_ -> Witness_ -> Wires * error)
  (compute :
     backend -> option R1CS_ -> option ProvingKey_ -> Wires -> Proof_)
  (b : backend) (r1cs : option R1CS_) (pk : option ProvingKey_)
  (witness : Circuit) (w : Witness_) (wireValues : Wires) (msg : string) :
  FromFullAssignment b witness = Returns (w, nil_error) ->
  Solve b r1cs w = (wireValues, errors_New msg) ->
  let prover := spec_curve_Prove Solve compute in
  (forall r1cs' pk' witness',
      Prove FromFullAssignment curve_Prove r1cs' pk' witness' []
      = Prove FromFullAssignment curve_Prove r1cs' pk' witness' [false])
  /\ (forall f rest,
        Prove FromFullAssignment curve_Prove
          (ptr b r1cs) (ptr b pk) witness (f :: rest)
        = match curve_Prove b r1cs pk w f with
          | Returns (proof, e) => Returns (ptr b proof, e)
          | Panics p => Panics p
          end)
  /\ Prove FromFullAssignment prover (ptr b r1cs) (ptr b pk) witness [true]
     = Returns (ptr b (Some (compute b r1cs pk wireValues)), nil_error)
  /\ Prove FromFullAssignment prover (ptr b r1cs) (ptr b pk) witness [false]
     = Returns (ptr b None, errors_New msg)
  /\ Prove FromFullAssignment prover (ptr b r1cs) (ptr b pk) witness []
     = Returns (ptr b None, errors_New msg).
Proof.
  intros Hw Hs prover.
  assert (Hcall : forall (cp : backend -> option R1CS_ ->
                             option ProvingKey_ -> Witness_ -> bool ->
                             outcome (option Proof_ * error)) f,
    Prove FromFullAssignment cp (ptr b r1cs) (ptr b pk) witness f
    = match cp b r1cs pk w (force_flag f) with
      | Returns (proof, e) => Returns (ptr b proof, e)
      | Panics p => Panics p
      end).
  { intros cp f. unfold Prove. cbn [bind Monad_outcome]. rewrite Hw.
    cbn [is_nil negb]. rewrite type_assert_same.
    destruct (cp b r1cs pk w (force_flag f)) as [[proof e]|p]; reflexivity. }
  split; [reflexivity|].
  split; [intros f rest; rewrite Hcall, force_flag_given; reflexivity|].
  rewrite !Hcall. unfold prover, spec_curve_Prove. rewrite Hs.
  repeat split.
Qed.

Lemma NoDup_4 {A : Type} (a b c d : A) :
  NoDup [a; b; c; d] ->
  a <> b /\ a <> c /\ a <> d /\ b <> c /\ b <> d /\ c <> d.
Proof.
  intros H.
  inversion H as [|? ? Ha H1]; subst. inversion H1 as [|? ? Hb H2]; subst.
  inversion H2 as [|? ? Hc H3]; subst. cbn in Ha, Hb, Hc.
  repeat split; intros ->; tauto.
Qed.

(** The [switch curveID], case by case. *)
Lemma switch_curveID_cases {T : Type} (new : backend -> T)
  (BN254 BLS12_377 BLS12_381 BW6_761 curveID : ID) :
  NoDup [BN254; BLS12_377; BLS12_381; BW6_761] ->
  let known := [(BN254, bn256); (BLS12_377, bls377);
                (BLS12_381, bls381); (BW6_761, bw761)] in
  (forall b, In (curveID, b) known ->
     switch_curveID BN254 BLS12_377 BLS12_381 BW6_761 new curveID
     = Returns (ptr b (Some (new b))))
  /\ (~ In curveID (map fst known) ->
        switch_curveID BN254 BLS12_377 BLS12_381 BW6_761 new curveID
        = Panics (panic_msg "not implemented")).
Proof.
  intros Hnd known. apply NoDup_4 in Hnd.
  destruct Hnd as (H12 & H13 & H14 & H23 & H24 & H34).
  unfold switch_curveID. cbn [ret Monad_outcome]. split.
  - intros b Hin. cbn in Hin.
    destruct Hin as [E|[E|[E|[E|[]]]]]; injection E as <- <-;
      repeat match goal with
             | |- context [?x =? ?y] =>
                 destruct (Z.eqb_spec x y); try congruence
             end.
  - intros Hnot. cbn in Hnot.
    repeat match goal with
           | |- context [?x =? ?y] =>
               destruct (Z.eqb_spec x y); [exfalso; apply Hnot; auto 6|]
           end.
    reflexivity.
Qed.

(** C4: each of the four constructors returns a fresh object of the back
    end that the identifier names when it is one of the four constants,
    and panics with "not implemented" on every other value, returning
    nothing. *)
Theorem New_dispatch_on_curveID
  (BN254 BLS12_377 BLS12_381 BW6_761 : ID)
  (new_ProvingKey : backend -> ProvingKey_)
  (new_VerifyingKey : backend -> VerifyingKey_)
  (new_Proof : backend -> Proof_) (new_R1CS : backend -> R1CS_)
  (curveID : ID) :
  NoDup [BN254; BLS12_377; BLS12_381; BW6_761] ->
  let known := [(BN254, bn256); (BLS12_377, bls377);
                (BLS12_381, bls381); (BW6_761, bw761)] in
  let NewProvingKey :=
    NewProvingKey new_ProvingKey BN254 BLS12_377 BLS12_381 BW6_761 in
  let NewVerifyingKey :=
    NewVerifyingKey new_VerifyingKey BN254 BLS12_377 BLS12_381 BW6_761 in
  let NewProof := NewProof new_Proof BN254 BLS12_377 BLS12_381 BW6_761 in
  let NewCS := NewCS new_R1CS BN254 BLS12_377 BLS12_381 BW6_761 in
  (forall b, In (curveID, b) known ->
     NewProvingKey curveID = Returns (ptr b (Some (new_ProvingKey b)))
     /\ NewVerifyingKey curveID = Returns (ptr b (Some (new_VerifyingKey b)))
     /\ NewProof curveID = Returns (ptr b (Some (new_Proof b)))
     /\ NewCS curveID = Returns (ptr b (Some (new_R1CS b))))
  /\ (~ In curveID (map fst known) ->
        NewProvingKey curveID = Panics (panic_msg "not implemented")
        /\ NewVerifyingKey curveID = Panics (panic_msg "not implemented")
        /\ NewProof curveID = Panics (panic_msg "not implemented")
        /\ NewCS curveID = Panics (panic_msg "not implemented"))
  /\ (forall p,
        NewProvingKey curveID = Panics p \/ NewVerifyingKey curveID = Panics p
        \/ NewProof curveID = Panics p \/ NewCS curveID = Panics p ->
        ~ In curveID (map fst known)).
Proof.
  intros Hnd known NPK NVK NP NCS.
  pose proof (switch_curveID_cases new_ProvingKey _ _ _ _ curveID Hnd)
    as [Kpk Upk].
  pose proof (switch_curveID_cases new_VerifyingKey _ _ _ _ curveID Hnd)
    as [Kvk Uvk].
  pose proof (switch_curveID_cases new_Proof _ _ _ _ curveID Hnd)
    as [Kp Up].
  pose proof (switch_curveID_cases new_R1CS _ _ _ _ curveID Hnd)
    as [Kcs Ucs].
  split; [|split].
  - intros b Hin. repeat split; [apply Kpk | apply Kvk | apply Kp | apply Kcs];
      exact Hin.
  - intros Hnot. repeat split; [apply Upk | apply Uvk | apply Up | apply Ucs];
      exact Hnot.
  - intros p Hp Hin.
    assert (exists b, In (curveID, b) known) as [b Hb].
    { subst known. cbn in Hin |- *.
      destruct Hin as [<-|[<-|[<-|[<-|[]]]]]; eauto 8. }
    unfold NPK, NVK, NP, NCS, NewProvingKey, NewVerifyingKey, NewProof,
      NewCS in Hp.
    rewrite (Kpk b Hb), (Kvk b Hb), (Kp b Hb), (Kcs b Hb) in Hp.
    destruct Hp as [H|[H|[H|H]]]; discriminate H.
Qed.



End DispatchFacts.

Lemma Verify_Prove_mixed_curves_witness :
  groth16.Verify double.FromAssignment double.curve_Verify
    (groth16.ptr groth16.bls377 (Some [1])) (groth16.ptr groth16.bn256 (Some 1))
    [1]
  = Panics panic_type_assertion.
Proof.
  apply (Verify_Prove_mixed_curves _ _ _ _ _ _
           double.FromAssignment double.FromAssignment
           double.curve_Verify double.curve_Prove
           groth16.bls377 groth16.bn256 (Some [1]) (Some 1)
           (Some (0, 0, 2)) (Some tt) [1] [1] []).
  discriminate.
Defined.

(** C2 as stated fails: a BLS12-377 proof against a BN254 verifying key
    does not come back with an error value; the call panics. *)
Lemma Verify_mixed_curves_panics :
  let call :=
    groth16.Verify double.FromAssignment double.curve_Verify
      (groth16.ptr groth16.bls377 (Some [1]))
      (groth16.ptr groth16.bn256 (Some 1)) [1] in
  call = Panics panic_type_assertion
  /\ ~ (exists e, e <> nil_error /\ call = Returns e).
Proof.
  split; [reflexivity|]. intros (e & _ & H). discriminate H.
Qed.

Lemma Prove_force_flag_witness :
  groth16.Prove double.FromAssignment double.curve_Prove
    (groth16.ptr groth16.bn256 (Some (0, 1, 2)))
    (groth16.ptr groth16.bn256 (Some tt)) [3; 0] [true]
  = Returns (groth16.ptr groth16.bn256 (Some [3; 0]), nil_error)
  /\ groth16.Prove double.FromAssignment double.curve_Prove
       (groth16.ptr groth16.bn256 (Some (0, 1, 2)))
       (groth16.ptr groth16.bn256 (Some tt)) [3; 0] []
     = Returns (groth16.ptr groth16.bn256 None,
                errors_New "unsatisfied constraint").
Proof.
  pose proof (Prove_force_flag _ _ _ _ _ double.FromAssignment
                double.curve_Prove _ double.Solve double.compute
                groth16.bn256 (Some (0, 1, 2)) (Some tt) [3; 0] [3; 0] [3; 0]
                "unsatisfied constraint" eq_refl eq_refl)
    as (_ & _ & Htrue & _ & Hnone).
  split; [exact Htrue | exact Hnone].
Defined.

Lemma New_dispatch_on_curveID_witness :
  groth16.NewProvingKey (fun _ => tt) 1 2 3 4 2
  = Returns (groth16.ptr groth16.bls377 (Some tt))
  /\ groth16.NewCS (fun _ => (0, 0, 0)) 1 2 3 4 0
     = Panics (panic_msg "not implemented").
Proof.
  assert (Hnd : NoDup [1; 2; 3; 4]).
  { repeat constructor; cbn; lia. }
  split.
  - apply (New_dispatch_on_curveID unit unit unit unit 1 2 3 4
             (fun _ => tt) (fun _ => tt) (fun _ => tt) (fun _ => tt) 2 Hnd).
    cbn. auto.
  - apply (New_dispatch_on_curveID unit unit unit (Z * Z * Z) 1 2 3 4
             (fun _ => tt) (fun _ => tt) (fun _ => tt) (fun _ => (0, 0, 0))
             0 Hnd).
    cbn. lia.
Defined.





(** ** The mock commitment scheme *)

(** C9: [Verify] and [BatchVerifySinglePoint] of the mock scheme return
    true on every input. *)
Theorem mock_scheme_accepts
  (Digest OpeningProof BatchOpeningProofSinglePoint any : Type) :
  (forall s (d : Digest) (p : OpeningProof) (v : any),
      mockcommitment.Verify Digest OpeningProof any s d p v = true)
  /\ (forall s (point claimedValues commitments : any)
        (batchOpeningProof : BatchOpeningProofSinglePoint),
        mockcommitment.BatchVerifySinglePoint
          BatchOpeningProofSinglePoint any s point claimedValues commitments
          batchOpeningProof = true).
Proof. split; intros; reflexivity. Qed.

(** ** The quadratic extension *)
Section E2Facts.
Import fields.
Variable q : Z.

Local Abbreviation Mul e1 e2 ext :=
  (unIdent (E2.Mul (H0 := frontend.engine q) e1 e2 ext)).
Local Abbreviation Square x ext :=
  (unIdent (E2.Square (H0 := frontend.engine q) x ext)).

(** Congruence modulo [q], to strip the reductions inside a term. *)
Lemma strip_mod a a' : a mod q = a' mod q -> (a mod q) mod q = a' mod q.
Proof. intros E. rewrite Zmod_mod. exact E. Qed.

Lemma strip_add a a' b b' :
  a mod q = a' mod q -> b mod q = b' mod q ->
  (a + b) mod q = (a' + b') mod q.
Proof. intros Ea Eb. rewrite Zplus_mod, Ea, Eb, <- Zplus_mod. reflexivity. Qed.

Lemma strip_sub a a' b b' :
  a mod q = a' mod q -> b mod q = b' mod q ->
  (a - b) mod q = (a' - b') mod q.
Proof. intros Ea Eb. rewrite Zminus_mod, Ea, Eb, <- Zminus_mod. reflexivity. Qed.

Lemma strip_mul a a' b b' :
  a mod q = a' mod q -> b mod q = b' mod q ->
  (a * b) mod q = (a' * b') mod q.
Proof. intros Ea Eb. rewrite Zmult_mod, Ea, Eb, <- Zmult_mod. reflexivity. Qed.

Ltac strip :=
  lazymatch goal with
  | |- (_ mod q) mod q = _ => eapply strip_mod; strip
  | |- (_ + _) mod q = _ => eapply strip_add; strip
  | |- (_ - _) mod q = _ => eapply strip_sub; strip
  | |- (_ * _) mod q = _ => eapply strip_mul; strip
  | |- _ => reflexivity
  end.

Ltac mod_ring := etransitivity; [strip | f_equal; ring].

(** The values that [Mul] computes. *)
Lemma Mul_values e1 e2 ext :
  Mul e1 e2 ext =
    mkE2 ((A0 e1 * A0 e2 + uSquare ext * (A1 e1 * A1 e2)) mod q)
         ((A0 e1 * A1 e2 + A1 e1 * A0 e2) mod q).
Proof.
  unfold E2.Mul, frontend.FromInterface.
  cbn [bind ret Monad_ident unIdent frontend.Add frontend.Sub frontend.Mul
       frontend.engine frontend.eval].
  f_equal; mod_ring.
Qed.

(** The values that [Square] computes. *)
Lemma Square_values x ext :
  Square x ext =
    mkE2 ((A0 x * A0 x + uSquare ext * (A1 x * A1 x)
           + (uSquare ext + 5) * A0 x * A1 x) mod q)
         ((A0 x * A1 x + A1 x * A0 x) mod q).
Proof.
  unfold E2.Square, frontend.FromInterface.
  cbn [bind ret Monad_ident unIdent frontend.Add frontend.Sub frontend.Mul
       frontend.engine frontend.eval].
  f_equal; mod_ring.
Qed.

Lemma add_mod_cancel m d :
  (m + d) mod q = m mod q <-> d mod q = 0.
Proof.
  split; intros E.
  - replace d with ((m + d) - m) by ring.
    rewrite Zminus_mod, E, Z.sub_diag. apply Zmod_0_l.
  - rewrite <- Zplus_mod_idemp_r, E, Z.add_0_r. reflexivity.
Qed.

(** C8, as the code has it: [Square] gives the pair that [Mul] gives on
    twice the same operand exactly when (uSquare + 5) * A0 * A1 is zero
    in the field; the second components always agree. *)
Theorem Square_eq_Mul_iff (x : E2 Z) (ext : Extension) :
  (Square x ext = Mul x x ext
   <-> ((uSquare ext + 5) * A0 x * A1 x) mod q = 0)
  /\ A1 (Square x ext) = A1 (Mul x x ext).
Proof.
  rewrite Square_values, Mul_values. cbn [A0 A1]. split; [|reflexivity].
  split.
  - intros E. injection E as E. apply add_mod_cancel in E. exact E.
  - intros E. f_equal. apply add_mod_cancel. exact E.
Qed.

(** With the non-residue of the BLS12-377 tower, u^2 = -5, the two agree
    on every operand. *)
Corollary Square_eq_Mul_bls377 (x : E2 Z) (ext : Extension) :
  (uSquare ext + 5) mod q = 0 -> Square x ext = Mul x x ext.
Proof.
  intros E. rewrite Square_values, Mul_values. f_equal.
  apply add_mod_cancel.
  rewrite <- Z.mul_assoc, <- Zmult_mod_idemp_l, E. apply Zmod_0_l.
Qed.

End E2Facts.

Lemma Square_eq_Mul_iff_witness :
  let q := fr.bw6_761_modulus in
  let x := fields.mkE2 3 7 in
  let ext := fields.mkExtension (-5) in
  unIdent (fields.E2.Square (H0 := frontend.engine q) x ext)
  = unIdent (fields.E2.Mul (H0 := frontend.engine q) x x ext).
Proof.
  intros q x ext.
  apply (proj1 (Square_eq_Mul_iff q x ext)). reflexivity.
Defined.

(** C8 as stated fails: for uSquare = 0 and x = (1, 1), over the scalar
    field of BW6-761, [Square] gives (6, 2) and [Mul] gives (1, 2). *)
Lemma Square_differs_from_Mul :
  let q := fr.bw6_761_modulus in
  let x := fields.mkE2 1 1 in
  let ext := fields.mkExtension 0 in
  unIdent (fields.E2.Square (H0 := frontend.engine q) x ext) = fields.mkE2 6 2
  /\ unIdent (fields.E2.Mul (H0 := frontend.engine q) x x ext)
     = fields.mkE2 1 2
  /\ unIdent (fields.E2.Square (H0 := frontend.engine q) x ext)
     <> unIdent (fields.E2.Mul (H0 := frontend.engine q) x x ext).
Proof.
  intros q x ext. split; [|split].
  - vm_compute. reflexivity.
  - vm_compute. reflexivity.
  - vm_compute. discriminate.
Qed.

(** * Further properties *)

(** ** The hints, continued *)

(** [powModulusMinusOne] reports an error exactly when it is not given one
    input; it then returns the zero element and leaves the inputs alone. *)
Theorem powModulusMinusOne_arity (q rInv : Z) (inputs : list fr.Element) :
  (snd (cs.returned (cs.powModulusMinusOne q rInv inputs)) <> nil_error
   <-> List.length inputs <> 1%nat)
  /\ (List.length inputs <> 1%nat ->
      cs.powModulusMinusOne q rInv inputs
      = (inputs,
         (fr.Zero, errors_New "powModulusMinusOne expects one input"))).
Proof.
  unfold cs.powModulusMinusOne, cs.returned.
  destruct (Nat.eqb_spec (List.length inputs) 1) as [E|E]; cbn [negb snd].
  - split; [|contradiction]. split; [intros H; exfalso; apply H; reflexivity|].
    intros H. contradiction.
  - split; [|reflexivity]. split; [intros _; exact E | discriminate].
Qed.

(** The value that [powModulusMinusOne] returns on one reduced input. *)
Lemma powModulusMinusOne_value (q rInv : Z) (x : fr.Element) :
  fr.constants_ok q rInv -> Z.prime q -> fr.reduced q x ->
  fr.value q rInv (fst (cs.returned (cs.powModulusMinusOne q rInv [x])))
  = if fr.value q rInv x =? 0 then 1 else 0.
Proof.
  intros Hc Hp Hx.
  unfold cs.powModulusMinusOne, cs.returned.
  cbn [List.length Nat.eqb negb nth snd fst].
  destruct (Z.eqb_spec (fr.value q rInv x) 0) as [E|E].
  - apply (value_eq_0 q rInv Hc) in E; [|assumption]. subst x.
    change 0 with fr.Zero at 1. rewrite (Exp_Zero q rInv Hc).
    + rewrite Sub_Zero by apply (One_reduced q rInv Hc).
      apply (value_One q rInv Hc).
    + unfold cs.qMinusOne, cs.init, fr.Modulus. destruct Hc. lia.
  - rewrite (Exp_qMinusOne q rInv Hc); try assumption.
    + rewrite Sub_self. apply (value_Zero q rInv Hc).
    + intros ->. apply E. apply (value_Zero q rInv Hc).
Qed.

(** The wire [m] that the hint fills satisfies the three constraints that
    pin down a zero test of [x]: m is boolean, x * m = 0, and m + x is not
    zero. *)
Theorem powModulusMinusOne_zero_test (q rInv : Z) (x : fr.Element) :
  fr.constants_ok q rInv -> Z.prime q -> fr.reduced q x ->
  let m := fr.value q rInv
             (fst (cs.returned (cs.powModulusMinusOne q rInv [x]))) in
  (m * (1 - m)) mod q = 0
  /\ (fr.value q rInv x * m) mod q = 0
  /\ (m + fr.value q rInv x) mod q <> 0.
Proof.
  intros Hc Hp Hx m. subst m.
  rewrite powModulusMinusOne_value by assumption.
  pose proof Hc as (Hq & _).
  pose proof (value_reduced q rInv Hc x) as Hv. unfold fr.reduced in Hv.
  destruct (Z.eqb_spec (fr.value q rInv x) 0) as [E|E].
  - rewrite E. split; [exact (Zmod_0_l q)|]. split; [exact (Zmod_0_l q)|].
    change (1 + 0) with 1. rewrite Z.mod_small by lia. lia.
  - split; [exact (Zmod_0_l q)|]. split.
    + rewrite Z.mul_0_r. exact (Zmod_0_l q).
    + change (0 + fr.value q rInv x) with (fr.value q rInv x).
      rewrite Z.mod_small by lia. exact E.
Qed.

Lemma powModulusMinusOne_zero_test_witness :
  let m := fr.value 11 9 (fst (cs.returned (cs.powModulusMinusOne 11 9 [7]))) in
  (m * (1 - m)) mod 11 = 0
  /\ (fr.value 11 9 7 * m) mod 11 = 0
  /\ (m + fr.value 11 9 7) mod 11 <> 0.
Proof.
  apply (powModulusMinusOne_zero_test 11 9 7 constants_11 prime_11).
  unfold fr.reduced. lia.
Defined.

(** What [ithBit] returns on two inputs. *)
Lemma ithBit_returned_two (q rInv : Z) (a n : fr.Element) :
  fr.constants_ok q rInv ->
  cs.returned (cs.ithBit q rInv [a; n]) =
    if fr.value q rInv n <? 2 ^ 64 then
      ((if Z.testbit (fr.value q rInv a) (fr.value q rInv n)
        then fr.One q else fr.Zero), nil_error)
    else
      (fr.Zero,
       errors_New "ithBit expects bit position (input[1]) to fit on one word").
Proof.
  intros Hc.
  assert (Hrange : forall z, 0 <= fr.value q rInv z < fr.R).
  { intros z. pose proof (value_reduced q rInv Hc z) as Hz.
    destruct Hc as (Hq & _). unfold fr.reduced in Hz. lia. }
  rewrite ithBit_two. cbv zeta.
  change (fr.FromMont q rInv) with (fr.value q rInv).
  rewrite IsUint64_ltb by apply Hrange.
  destruct (Z.ltb_spec (fr.value q rInv n) (2 ^ 64)) as [Hlt|Hge]; [|reflexivity].
  cbn [negb]. rewrite limb_0_small by (pose proof (Hrange n); lia).
  rewrite Bit_testbit by (apply Hrange).
  destruct (Z.testbit _ _); reflexivity.
Qed.

Lemma sum_of_bits (v : Z) (n : nat) :
  0 <= v ->
  fold_right Z.add 0
    (map (fun i => 2 ^ Z.of_nat i * Z.b2z (Z.testbit v (Z.of_nat i)))
       (seq 0 n))
  = v mod 2 ^ Z.of_nat n.
Proof.
  intros Hv. induction n as [|n IH].
  - cbn. symmetry. apply Z.mod_1_r.
  - rewrite seq_S, map_app, fold_right_app. cbn [map fold_right Nat.add].
    rewrite Z.add_0_r.
    assert (Hshift : forall l c,
              fold_right Z.add c l = fold_right Z.add 0 l + c).
    { induction l as [|h l IHl]; intros c; cbn; [lia|]. rewrite IHl. lia. }
    rewrite Hshift, IH.
    rewrite Nat2Z.inj_succ, Z.pow_succ_r by lia.
    rewrite (Z.mul_comm 2), Z.rem_mul_r
      by (try apply Z.pow_nonzero; lia).
    rewrite Z.testbit_spec' by lia. reflexivity.
Qed.

(** The bits that [ithBit] returns for the positions 0 .. n-1 add up, with
    their weights, to the integer [a] modulo 2^n: they are a binary
    decomposition. *)
Theorem ithBit_recomposes (q rInv : Z) (a : fr.Element) (n : nat) :
  fr.constants_ok q rInv ->
  Z.of_nat n <= q -> Z.of_nat n <= 2 ^ 64 ->
  fold_right Z.add 0
    (map (fun i =>
            2 ^ Z.of_nat i *
            fr.value q rInv
              (fst (cs.returned
                      (cs.ithBit q rInv [a; fr.ToMont q (Z.of_nat i)]))))
       (seq 0 n))
  = fr.value q rInv a mod 2 ^ Z.of_nat n.
Proof.
  intros Hc Hq H64.
  rewrite <- sum_of_bits
    by (pose proof (value_reduced q rInv Hc a) as H; apply H).
  f_equal. apply map_ext_in. intros i Hi. apply in_seq in Hi.
  f_equal. rewrite ithBit_returned_two by assumption.
  rewrite (value_ToMont q rInv Hc), Z.mod_small by lia.
  destruct (Z.ltb_spec (Z.of_nat i) (2 ^ 64)); [|lia]. cbn [fst].
  destruct (Z.testbit _ _); cbn [Z.b2z].
  - apply (value_One q rInv Hc).
  - apply (value_Zero q rInv Hc).
Qed.

Lemma ithBit_recomposes_witness :
  fold_right Z.add 0
    (map (fun i =>
            2 ^ Z.of_nat i *
            fr.value 11 9
              (fst (cs.returned
                      (cs.ithBit 11 9 [fr.ToMont 11 6; fr.ToMont 11 (Z.of_nat i)]))))
       (seq 0 3))
  = fr.value 11 9 (fr.ToMont 11 6) mod 2 ^ Z.of_nat 3.
Proof.
  apply (ithBit_recomposes 11 9 (fr.ToMont 11 6) 3 constants_11); cbn; lia.
Defined.

(** ** The curve dispatch, continued *)
Section DispatchMore.
Import groth16.
Variables Proof_ ProvingKey_ VerifyingKey_ R1CS_ Witness_ Circuit Reader
  : Type.
Variable FromPublicAssignment :
  backend -> Circuit -> outcome (Witness_ * error).
Variable FromFullAssignment :
  backend -> Circuit -> outcome (Witness_ * error).
Variable LimitReadFrom :
  backend -> Reader -> Z -> outcome (Reader * Witness_ * (Z * error)).
Variable curve_Verify :
  backend -> option Proof_ -> option VerifyingKey_ -> Witness_ ->
  outcome error.
Variable curve_Prove :
  backend -> option R1CS_ -> option ProvingKey_ -> Witness_ -> bool ->
  outcome (option Proof_ * error).
Variable SizePublicWitness : backend -> option VerifyingKey_ -> outcome Z.
Variable GetNbVariables : backend -> option R1CS_ -> outcome (Z * Z * Z).
Variable foreign_GetNbVariables : outcome (Z * Z * Z).
Variable curve_Setup :
  backend -> option R1CS_ -> outcome (ProvingKey_ * VerifyingKey_ * error).
Variable curve_DummySetup :
  backend -> option R1CS_ -> outcome (ProvingKey_ * error).

Local Abbreviation Verify := (Verify FromPublicAssignment curve_Verify).
Local Abbreviation Prove := (Prove FromFullAssignment curve_Prove).
Local Abbreviation ReadAndVerify :=
  (ReadAndVerify LimitReadFrom curve_Verify SizePublicWitness).
Local Abbreviation ReadAndProve :=
  (ReadAndProve LimitReadFrom curve_Prove GetNbVariables
     foreign_GetNbVariables).
Local Abbreviation Setup := (Setup curve_Setup).
Local Abbreviation DummySetup := (DummySetup curve_DummySetup).

(** What [Prove] and [Verify] do when the key is of the back end of the
    constraint system, respectively of the proof. *)
Lemma Prove_same_backend b r pk witness force :
  Prove (ptr b r) (ptr b pk) witness force
  = match FromFullAssignment b witness with
    | Returns (w, nil_error) =>
        match curve_Prove b r pk w (force_flag force) with
        | Returns (proof, e) => Returns (ptr b proof, e)
        | Panics x => Panics x
        end
    | Returns (_, errors_New m) => Returns (nil_iface, errors_New m)
    | Panics x => Panics x
    end.
Proof.
  unfold groth16.Prove. cbn [bind Monad_outcome].
  destruct (FromFullAssignment b witness) as [[w [|m]]|x];
    cbn [is_nil negb ret Monad_outcome]; try reflexivity.
  rewrite type_assert_same.
  destruct (curve_Prove b r pk w (force_flag force)) as [[proof e]|x];
    reflexivity.
Qed.

Lemma Verify_same_backend b proof vk publicWitness :
  Verify (ptr b proof) (ptr b vk) publicWitness
  = match FromPublicAssignment b publicWitness with
    | Returns (w, nil_error) => curve_Verify b proof vk w
    | Returns (_, errors_New m) => Returns (errors_New m)
    | Panics x => Panics x
    end.
Proof.
  unfold groth16.Verify. cbn [bind Monad_outcome].
  destruct (FromPublicAssignment b publicWitness) as [[w [|m]]|x];
    cbn [is_nil negb ret Monad_outcome]; try reflexivity.
  rewrite type_assert_same. destruct (curve_Verify b proof vk w); reflexivity.
Qed.

(** Keys that [Setup] returns without error are non-nil pointers of the
    back end of the constraint system, filled by that back end's [Setup];
    [Prove] on the same constraint system and [Verify] on a proof of that
    back end therefore pass their type assertions with them and reach the
    per-curve functions.  When [Setup] returns an error, both keys are
    nil. *)
Theorem Setup_keys_fit (r1cs : iface R1CS_) (pk : iface ProvingKey_)
  (vk : iface VerifyingKey_) (e : error) :
  Setup r1cs = Returns (pk, vk, e) ->
  (e = nil_error ->
     exists b r p v,
       r1cs = ptr b r /\ pk = ptr b (Some p) /\ vk = ptr b (Some v)
       /\ curve_Setup b r = Returns (p, v, nil_error)
       /\ (forall witness w force,
             FromFullAssignment b witness = Returns (w, nil_error) ->
             Prove r1cs pk witness force
             = match curve_Prove b r (Some p) w (force_flag force) with
               | Returns (proof, e') => Returns (ptr b proof, e')
               | Panics x => Panics x
               end)
       /\ (forall proof publicWitness w,
             FromPublicAssignment b publicWitness = Returns (w, nil_error) ->
             Verify (ptr b proof) vk publicWitness
             = curve_Verify b proof (Some v) w))
  /\ (e <> nil_error -> pk = nil_iface /\ vk = nil_iface).
Proof.
  unfold groth16.Setup. destruct r1cs as [|b r|]; try discriminate.
  cbn [bind Monad_outcome].
  destruct (curve_Setup b r) as [[[p v] [|m]]|x] eqn:Hs;
    cbn [is_nil negb ret Monad_outcome]; intros H; try discriminate;
    injection H as <- <- <-.
  - split; [|congruence]. intros _. exists b, r, p, v.
    repeat split; try reflexivity; try exact Hs.
    + intros witness w force Hw. rewrite Prove_same_backend, Hw. reflexivity.
    + intros proof publicWitness w Hw.
      rewrite Verify_same_backend, Hw. reflexivity.
  - split; [discriminate|]. intros _. split; reflexivity.
Qed.

(** [DummySetup] likewise: a proving key returned without error is a
    non-nil pointer of the back end of the constraint system, with which
    [Prove] reaches the per-curve prover; with an error the key is nil. *)
Theorem DummySetup_key_fits (r1cs : iface R1CS_) (pk : iface ProvingKey_)
  (e : error) :
  DummySetup r1cs = Returns (pk, e) ->
  (e = nil_error ->
     exists b r p,
       r1cs = ptr b r /\ pk = ptr b (Some p)
       /\ curve_DummySetup b r = Returns (p, nil_error)
       /\ (forall witness w force,
             FromFullAssignment b witness = Returns (w, nil_error) ->
             Prove r1cs pk witness force
             = match curve_Prove b r (Some p) w (force_flag force) with
               | Returns (proof, e') => Returns (ptr b proof, e')
               | Panics x => Panics x
               end))
  /\ (e <> nil_error -> pk = nil_iface).
Proof.
  unfold groth16.DummySetup. destruct r1cs as [|b r|]; try discriminate.
  cbn [bind Monad_outcome].
  destruct (curve_DummySetup b r) as [[p [|m]]|x] eqn:Hs;
    cbn [is_nil negb ret Monad_outcome]; intros H; try discriminate;
    injection H as <- <-.
  - split; [|congruence]. intros _. exists b, r, p.
    repeat split; try reflexivity; try exact Hs.
    intros witness w force Hw. rewrite Prove_same_backend, Hw. reflexivity.
  - split; [discriminate|]. intros _. reflexivity.
Qed.

(** [ReadAndVerify] is [Verify] on the witness that the reader yields: when
    the stream holds the witness that the public assignment converts to,
    both give the same verdict. *)
Theorem ReadAndVerify_agrees_with_Verify (b : backend)
  (proof : option Proof_) (vk : option VerifyingKey_) (rd rd' : Reader)
  (c : Circuit) (w : Witness_) (size k : Z) :
  SizePublicWitness b vk = Returns size ->
  LimitReadFrom b rd size = Returns (rd', w, (k, nil_error)) ->
  FromPublicAssignment b c = Returns (w, nil_error) ->
  ReadAndVerify (ptr b proof) (ptr b vk) rd
  = match Verify (ptr b proof) (ptr b vk) c with
    | Returns e => Returns (rd', e)
    | Panics x => Panics x
    end.
Proof.
  intros Hsize Hread Hconv.
  rewrite Verify_same_backend, Hconv.
  unfold groth16.ReadAndVerify. cbn [bind Monad_outcome].
  rewrite Hsize, Hread. cbn [is_nil negb]. rewrite type_assert_same.
  destruct (curve_Verify b proof vk w); reflexivity.
Qed.

(** [ReadAndProve] is [Prove] on the witness that the reader yields, with
    the same handling of the force flag. *)
Theorem ReadAndProve_agrees_with_Prove (b : backend)
  (r1cs : option R1CS_) (pk : option ProvingKey_) (rd rd' : Reader)
  (c : Circuit) (w : Witness_) (nbInternal nbSecret nbPublic k : Z)
  (force : list bool) :
  GetNbVariables b r1cs = Returns (nbInternal, nbSecret, nbPublic) ->
  LimitReadFrom b rd (expectedSize nbSecret nbPublic)
  = Returns (rd', w, (k, nil_error)) ->
  FromFullAssignment b c = Returns (w, nil_error) ->
  ReadAndProve (ptr b r1cs) (ptr b pk) rd force
  = match Prove (ptr b r1cs) (ptr b pk) c force with
    | Returns res => Returns (rd', res)
    | Panics x => Panics x
    end.
Proof.
  intros Hnb Hread Hconv.
  rewrite Prove_same_backend, Hconv.
  unfold groth16.ReadAndProve.
  cbn [bind Monad_outcome iface_GetNbVariables].
  rewrite Hnb, Hread. cbn [is_nil negb]. rewrite type_assert_same.
  destruct (curve_Prove b r1cs pk w (force_flag force)) as [[p e]|x];
    reflexivity.
Qed.

(** An error of the reader ends [ReadAndProve] and [ReadAndVerify] with
    that error before the second argument is looked at: a key, or a proof,
    that is nil or of another curve does not make the call panic then. *)
Theorem read_error_comes_first (b : backend) (r1cs : option R1CS_)
  (vk : option VerifyingKey_) (rd rd' : Reader) (w : Witness_)
  (nbInternal nbSecret nbPublic size k : Z) (m : string) :
  GetNbVariables b r1cs = Returns (nbInternal, nbSecret, nbPublic) ->
  SizePublicWitness b vk = Returns size ->
  (LimitReadFrom b rd (expectedSize nbSecret nbPublic)
   = Returns (rd', w, (k, errors_New m)) ->
   forall pk force,
     ReadAndProve (ptr b r1cs) pk rd force
     = Returns (rd', (nil_iface, errors_New m)))
  /\ (LimitReadFrom b rd size = Returns (rd', w, (k, errors_New m)) ->
      forall proof,
        ReadAndVerify proof (ptr b vk) rd = Returns (rd', errors_New m)).
Proof.
  intros Hnb Hsize. split; intros Hread.
  - intros pk force. unfold groth16.ReadAndProve.
    cbn [bind Monad_outcome iface_GetNbVariables].
    rewrite Hnb, Hread. reflexivity.
  - intros proof. unfold groth16.ReadAndVerify. cbn [bind Monad_outcome].
    rewrite Hsize, Hread. reflexivity.
Qed.

(** On a first argument that is nil or of no known curve, every entry
    point panics with "unrecognized R1CS curve type" before it touches the
    witness or the other argument, except that [ReadAndProve] calls
    [GetNbVariables] first and so panics on a nil constraint system with
    the nil dereference.  [Verify] switches on the proof and
    [ReadAndVerify] on the verifying key. *)
Theorem unrecognized_first_argument :
  (forall vk w, Verify nil_iface vk w = unrecognized
                /\ Verify foreign vk w = unrecognized)
  /\ (forall proof rd, ReadAndVerify proof nil_iface rd = unrecognized
                       /\ ReadAndVerify proof foreign rd = unrecognized)
  /\ (forall pk w force, Prove nil_iface pk w force = unrecognized
                         /\ Prove foreign pk w force = unrecognized)
  /\ (Setup nil_iface = unrecognized /\ Setup foreign = unrecognized)
  /\ (DummySetup nil_iface = unrecognized
      /\ DummySetup foreign = unrecognized)
  /\ (forall pk rd force,
        ReadAndProve nil_iface pk rd force = Panics panic_nil_dereference
        /\ ReadAndProve foreign pk rd force
           = match foreign_GetNbVariables with
             | Returns _ => unrecognized
             | Panics x => Panics x
             end).
Proof.
  repeat split; try reflexivity.
  unfold groth16.ReadAndProve. cbn [bind Monad_outcome iface_GetNbVariables].
  destruct foreign_GetNbVariables as [[[? ?] ?]|]; reflexivity.
Qed.

End DispatchMore.

Lemma Setup_keys_fit_witness :
  groth16.Prove double.FromAssignment double.curve_Prove
    (groth16.ptr groth16.bn256 (Some (0, 1, 2)))
    (groth16.ptr groth16.bn256 (Some tt)) [3; 4] []
  = Returns (groth16.ptr groth16.bn256 (Some [3; 4]), nil_error).
Proof.
  destruct (proj1 (Setup_keys_fit (list Z) unit Z (Z * Z * Z) (list Z) (list Z)
                     double.FromAssignment double.FromAssignment
                     double.curve_Verify double.curve_Prove double.curve_Setup
                     (groth16.ptr groth16.bn256 (Some (0, 1, 2)))
                     (groth16.ptr groth16.bn256 (Some tt))
                     (groth16.ptr groth16.bn256 (Some 1)) nil_error eq_refl)
              eq_refl)
    as (b & r & p & v & Er & Ep & Ev & Hs & HP & HV).
  injection Er as <- <-. destruct p.
  rewrite (HP [3; 4] [3; 4] [] eq_refl). reflexivity.
Defined.

Lemma DummySetup_key_fits_witness :
  groth16.Prove double.FromAssignment double.curve_Prove
    (groth16.ptr groth16.bls381 (Some (0, 1, 2)))
    (groth16.ptr groth16.bls381 (Some tt)) [3; 4] [true]
  = Returns (groth16.ptr groth16.bls381 (Some [3; 4]), nil_error).
Proof.
  destruct (proj1 (DummySetup_key_fits (list Z) unit (Z * Z * Z) (list Z)
                     (list Z) double.FromAssignment double.curve_Prove
                     double.curve_DummySetup
                     (groth16.ptr groth16.bls381 (Some (0, 1, 2)))
                     (groth16.ptr groth16.bls381 (Some tt)) nil_error eq_refl)
              eq_refl)
    as (b & r & p & Er & Ep & Hs & HP).
  injection Er as <- <-. destruct p.
  rewrite (HP [3; 4] [3; 4] [true] eq_refl). reflexivity.
Defined.

Lemma ReadAndVerify_agrees_with_Verify_witness :
  groth16.ReadAndVerify groth16.spec_LimitReadFrom double.curve_Verify
    double.SizePublicWitness
    (groth16.ptr groth16.bn256 (Some [1])) (groth16.ptr groth16.bn256 (Some 2))
    [2; 7; 9]
  = Returns ([], nil_error).
Proof.
  apply (ReadAndVerify_agrees_with_Verify (list Z) Z (list Z) (list Z)
           groth16.stream double.FromAssignment groth16.spec_LimitReadFrom
           double.curve_Verify double.SizePublicWitness
           groth16.bn256 (Some [1]) (Some 2) [2; 7; 9] [] [7; 9] [7; 9] 2 3
           eq_refl eq_refl eq_refl).
Defined.

Lemma ReadAndProve_agrees_with_Prove_witness :
  groth16.ReadAndProve groth16.spec_LimitReadFrom double.curve_Prove
    double.GetNbVariables (Panics panic_nil_dereference)
    (groth16.ptr groth16.bn256 (Some (0, 1, 2)))
    (groth16.ptr groth16.bn256 (Some tt)) [2; 7; 0] [true]
  = Returns ([], (groth16.ptr groth16.bn256 (Some [7; 0]), nil_error)).
Proof.
  apply (ReadAndProve_agrees_with_Prove (list Z) unit (Z * Z * Z) (list Z)
           (list Z) groth16.stream double.FromAssignment
           groth16.spec_LimitReadFrom double.curve_Prove
           double.GetNbVariables (Panics panic_nil_dereference)
           groth16.bn256 (Some (0, 1, 2)) (Some tt) [2; 7; 0] [] [7; 0] [7; 0]
           0 1 2 3 [true] eq_refl eq_refl eq_refl).
Defined.

Lemma read_error_comes_first_witness :
  groth16.ReadAndProve groth16.spec_LimitReadFrom double.curve_Prove
    double.GetNbVariables (Panics panic_nil_dereference)
    (groth16.ptr groth16.bn256 (Some (0, 1, 2))) groth16.nil_iface
    [3; 7; 9; 4] []
  = Returns ([7; 9; 4],
             (groth16.nil_iface, errors_New "invalid witness size")).
Proof.
  apply (proj1 (read_error_comes_first (list Z) unit Z (Z * Z * Z) (list Z)
                  groth16.stream groth16.spec_LimitReadFrom
                  double.curve_Verify double.curve_Prove
                  double.SizePublicWitness double.GetNbVariables
                  (Panics panic_nil_dereference)
                  groth16.bn256 (Some (0, 1, 2)) (Some 2) [3; 7; 9; 4]
                  [7; 9; 4] [] 0 1 2 2 1 "invalid witness size"
                  eq_refl eq_refl) eq_refl).
Defined.

(** The identifiers for which a constructor returns, and what it returns
    for them. *)
Lemma switch_curveID_returns {T : Type} (new : groth16.backend -> T)
  (BN254 BLS12_377 BLS12_381 BW6_761 curveID : groth16.ID)
  (r : groth16.iface T) :
  groth16.switch_curveID BN254 BLS12_377 BLS12_381 BW6_761 new curveID
  = Returns r ->
  exists b,
    In (curveID, b)
       [(BN254, groth16.bn256); (BLS12_377, groth16.bls377);
        (BLS12_381, groth16.bls381); (BW6_761, groth16.bw761)]
    /\ r = groth16.ptr b (Some (new b)).
Proof.
  unfold groth16.switch_curveID. cbn [ret Monad_outcome].
  repeat match goal with
         | |- context [?x =? ?y] =>
             destruct (Z.eqb_spec x y);
             [subst; intros H; injection H as <-; eexists;
              split; [|reflexivity]; cbn; auto 6|]
         end.
  discriminate.
Qed.

(** Objects made by the constructors fit together exactly when they were
    made for the same identifier: a constraint system and a proving key,
    or a proof and a verifying key, are of the same back end (so that
    [Prove], respectively [Verify], passes its type assertion) if and only
    if the two identifiers are equal. *)
Theorem New_objects_fit_iff_same_curveID
  (ProvingKey_ VerifyingKey_ Proof_ R1CS_ : Type)
  (BN254 BLS12_377 BLS12_381 BW6_761 : groth16.ID)
  (new_ProvingKey : groth16.backend -> ProvingKey_)
  (new_VerifyingKey : groth16.backend -> VerifyingKey_)
  (new_Proof : groth16.backend -> Proof_)
  (new_R1CS : groth16.backend -> R1CS_)
  (id1 id2 : groth16.ID) :
  NoDup [BN254; BLS12_377; BLS12_381; BW6_761] ->
  (forall r pk,
      groth16.NewCS new_R1CS BN254 BLS12_377 BLS12_381 BW6_761 id1
      = Returns r ->
      groth16.NewProvingKey new_ProvingKey BN254 BLS12_377 BLS12_381 BW6_761
        id2 = Returns pk ->
      exists b1 b2 x y,
        r = groth16.ptr b1 (Some x) /\ pk = groth16.ptr b2 (Some y)
        /\ (groth16.type_assert b1 pk = Returns (Some y) <-> id1 = id2))
  /\ (forall p vk,
        groth16.NewProof new_Proof BN254 BLS12_377 BLS12_381 BW6_761 id1
        = Returns p ->
        groth16.NewVerifyingKey new_VerifyingKey BN254 BLS12_377 BLS12_381
          BW6_761 id2 = Returns vk ->
        exists b1 b2 x y,
          p = groth16.ptr b1 (Some x) /\ vk = groth16.ptr b2 (Some y)
          /\ (groth16.type_assert b1 vk = Returns (Some y) <-> id1 = id2)).
Proof.
  intros Hnd.
  assert (Hkey : forall b1 b2,
    In (id1, b1) [(BN254, groth16.bn256); (BLS12_377, groth16.bls377);
                  (BLS12_381, groth16.bls381); (BW6_761, groth16.bw761)] ->
    In (id2, b2) [(BN254, groth16.bn256); (BLS12_377, groth16.bls377);
                  (BLS12_381, groth16.bls381); (BW6_761, groth16.bw761)] ->
    (b1 = b2 <-> id1 = id2)).
  { apply NoDup_4 in Hnd.
    destruct Hnd as (H12 & H13 & H14 & H23 & H24 & H34).
    intros b1 b2 H1 H2. cbn in H1, H2.
    destruct H1 as [E1|[E1|[E1|[E1|[]]]]]; injection E1 as <- <-;
      destruct H2 as [E2|[E2|[E2|[E2|[]]]]]; injection E2 as <- <-;
      split; intros E; try reflexivity; try discriminate E;
      exfalso; congruence. }
  assert (Hassert : forall (T : Type) b1 b2 (y : T),
    groth16.type_assert b1 (groth16.ptr b2 (Some y)) = Returns (Some y)
    <-> b1 = b2).
  { intros T b1 b2 y. split.
    - unfold groth16.type_assert.
      destruct (groth16.backend_eqb b1 b2) eqn:E; [|discriminate].
      intros _. destruct b1, b2; try discriminate E; reflexivity.
    - intros ->. destruct b2; reflexivity. }
  split.
  - intros r pk Hr Hpk.
    apply switch_curveID_returns in Hr, Hpk.
    destruct Hr as (b1 & In1 & ->), Hpk as (b2 & In2 & ->).
    exists b1, b2, (new_R1CS b1), (new_ProvingKey b2).
    split; [reflexivity|]. split; [reflexivity|].
    rewrite Hassert. apply Hkey; assumption.
  - intros p vk Hp Hvk.
    apply switch_curveID_returns in Hp, Hvk.
    destruct Hp as (b1 & In1 & ->), Hvk as (b2 & In2 & ->).
    exists b1, b2, (new_Proof b1), (new_VerifyingKey b2).
    split; [reflexivity|]. split; [reflexivity|].
    rewrite Hassert. apply Hkey; assumption.
Qed.

Lemma New_objects_fit_iff_same_curveID_witness :
  exists b1 b2 x y,
    groth16.ptr groth16.bls381 (Some tt) = groth16.ptr b1 (Some x)
    /\ groth16.ptr groth16.bw761 (Some tt) = groth16.ptr b2 (Some y)
    /\ (groth16.type_assert b1 (groth16.ptr groth16.bw761 (Some tt))
        = Returns (Some y) <-> 3 = 4).
Proof.
  assert (Hnd : NoDup [1; 2; 3; 4]) by (repeat constructor; cbn; lia).
  apply (proj2 (New_objects_fit_iff_same_curveID unit unit unit unit 1 2 3 4
                  (fun _ => tt) (fun _ => tt) (fun _ => tt) (fun _ => tt)
                  3 4 Hnd)
           (groth16.ptr groth16.bls381 (Some tt))
           (groth16.ptr groth16.bw761 (Some tt)) eq_refl eq_refl).
Defined.

(** ** The quadratic extension and the steps of the Miller loop *)
Section Fp2Facts.
Import frontend fields.
Variable q : Z.
Variable ext : Extension.

Local Abbreviation add := (Fp2.add q).
Local Abbreviation sub := (Fp2.sub q).
Local Abbreviation neg := (Fp2.neg q).
Local Abbreviation mul := (Fp2.mul q ext).
Local Abbreviation eqv := (Fp2.eqv q).
Local Abbreviation zero := Fp2.zero.
Local Abbreviation one := Fp2.one.

Ltac strip :=
  lazymatch goal with
  | |- (_ mod q) mod q = _ => eapply strip_mod; strip
  | |- (_ + _) mod q = _ => eapply strip_add; strip
  | |- (_ - _) mod q = _ => eapply strip_sub; strip
  | |- (_ * _) mod q = _ => eapply strip_mul; strip
  | |- _ => reflexivity
  end.

Ltac mod_ring :=
  etransitivity; [strip | symmetry; etransitivity; [strip | f_equal; ring]].

Lemma add_values x y :
  add x y = mkE2 ((A0 x + A0 y) mod q) ((A1 x + A1 y) mod q).
Proof. reflexivity. Qed.

Lemma sub_values x y :
  sub x y = mkE2 ((A0 x - A0 y) mod q) ((A1 x - A1 y) mod q).
Proof. reflexivity. Qed.

Lemma neg_values x :
  neg x = mkE2 ((0 mod q - A0 x) mod q) ((0 mod q - A1 x) mod q).
Proof. reflexivity. Qed.

Lemma mul_values x y :
  mul x y =
    mkE2 ((A0 x * A0 y + uSquare ext * (A1 x * A1 y)) mod q)
         ((A0 x * A1 y + A1 x * A0 y) mod q).
Proof. apply Mul_values. Qed.

Ltac fp2 :=
  unfold Fp2.eqv;
  rewrite ?mul_values, ?add_values, ?sub_values, ?neg_values;
  cbn [A0 A1 Fp2.zero Fp2.one]; split; mod_ring.

Lemma eqv_equiv : Equivalence eqv.
Proof.
  split.
  - intros x. split; reflexivity.
  - intros x y [H0 H1]. split; symmetry; assumption.
  - intros x y z [H0 H1] [K0 K1]. split; congruence.
Qed.

Lemma Fp2_ring_eq_ext : ring_eq_ext add mul neg eqv.
Proof.
  split.
  - intros x x' [Hx0 Hx1] y y' [Hy0 Hy1]. unfold Fp2.eqv.
    rewrite !add_values. cbn [A0 A1].
    split; rewrite !Zmod_mod; apply strip_add; assumption.
  - intros x x' [Hx0 Hx1] y y' [Hy0 Hy1]. unfold Fp2.eqv.
    rewrite !mul_values. cbn [A0 A1].
    split; rewrite !Zmod_mod; apply strip_add;
      repeat apply strip_mul; auto.
  - intros x x' [Hx0 Hx1]. unfold Fp2.eqv.
    rewrite !neg_values. cbn [A0 A1].
    split; rewrite !Zmod_mod; apply strip_sub; auto.
Qed.

Lemma Fp2_ring_theory : ring_theory zero one add mul sub neg eqv.
Proof.
  split; intros; fp2.
Qed.

Add Ring Fp2_ring : Fp2_ring_theory (setoid eqv_equiv Fp2_ring_eq_ext).


#[local] Instance eqv_Equivalence : Equivalence eqv := eqv_equiv.
#[local] Instance add_Proper : Proper (eqv ==> eqv ==> eqv) add :=
  Radd_ext Fp2_ring_eq_ext.
#[local] Instance mul_Proper : Proper (eqv ==> eqv ==> eqv) mul :=
  Rmul_ext Fp2_ring_eq_ext.
#[local] Instance neg_Proper : Proper (eqv ==> eqv) neg :=
  Ropp_ext Fp2_ring_eq_ext.

Lemma sub_Proper_lemma : Proper (eqv ==> eqv ==> eqv) sub.
Proof.
  intros x x' Hx y y' Hy.
  transitivity (add x (neg y)); [ring|].
  rewrite Hx, Hy. ring.
Qed.
#[local] Instance sub_Proper : Proper (eqv ==> eqv ==> eqv) sub :=
  sub_Proper_lemma.

Local Abbreviation scale x c :=
  (unIdent (E2.MulByFp (H0 := engine q) x (of_var c))).
Local Abbreviation conjugate x := (unIdent (E2.Conjugate (H0 := engine q) x)).
Local Abbreviation mulByIm x := (unIdent (E2.MulByIm (H0 := engine q) x ext)).

Lemma scale_values x c :
  scale x c = mkE2 ((A0 x * c) mod q) ((A1 x * c) mod q).
Proof. reflexivity. Qed.

Ltac fp2' :=
  unfold Fp2.eqv, Fp2.of_Fp;
  rewrite ?mul_values, ?add_values, ?sub_values, ?neg_values;
  cbn [A0 A1 Fp2.zero Fp2.one]; split; mod_ring.

(** The values that [Add], [Sub], [Neg] and [Mul] compute obey the laws of
    a commutative ring, for any modulus and any [uSquare], with (0, 0) and
    (1, 0) as zero and one. *)
Theorem E2_commutative_ring (x y z : E2 Z) :
  eqv (add x y) (add y x)
  /\ eqv (add (add x y) z) (add x (add y z))
  /\ eqv (add x zero) x
  /\ eqv (add x (neg x)) zero
  /\ eqv (sub x y) (add x (neg y))
  /\ eqv (mul x y) (mul y x)
  /\ eqv (mul (mul x y) z) (mul x (mul y z))
  /\ eqv (mul x one) x
  /\ eqv (mul x (add y z)) (add (mul x y) (mul x z)).
Proof. repeat (split; [ring|]). ring. Qed.

(** [MulByFp] multiplies by the element (c, 0), and [MulByIm] by the
    imaginary unit (0, 1). *)
Theorem MulByFp_MulByIm_are_products (x : E2 Z) (c : Z) :
  eqv (scale x c) (mul x (Fp2.of_Fp c))
  /\ eqv (mulByIm x) (mul x (mkE2 0 1)).
Proof.
  split.
  - rewrite scale_values. fp2'.
  - change (mulByIm x) with (mkE2 ((A1 x * (uSquare ext mod q)) mod q) (A0 x)).
    fp2'.
Qed.

(** [Conjugate]: an element times its conjugate is its norm
    a0^2 - uSquare a1^2, an element of the base field; the conjugate of a
    product is the product of the conjugates; conjugating twice gives the
    element back. *)
Theorem Conjugate_norm (x y : E2 Z) :
  eqv (mul x (conjugate x))
      (Fp2.of_Fp (A0 x * A0 x - uSquare ext * (A1 x * A1 x)))
  /\ eqv (conjugate (mul x y)) (mul (conjugate x) (conjugate y))
  /\ eqv (conjugate (conjugate x)) x.
Proof.
  change (conjugate x) with (mkE2 (A0 x) ((0 mod q - A1 x) mod q)).
  change (conjugate y) with (mkE2 (A0 y) ((0 mod q - A1 y) mod q)).
  split; [|split].
  - fp2'.
  - change (conjugate (mul x y))
      with (mkE2 (A0 (mul x y)) ((0 mod q - A1 (mul x y)) mod q)).
    fp2'.
  - change (eqv (mkE2 (A0 x) ((0 mod q - (0 mod q - A1 x) mod q) mod q)) x).
    fp2'.
Qed.

Local Abbreviation norm x :=
  ((A0 x * A0 x - uSquare ext * (A1 x * A1 x)) mod q).
Local Abbreviation Inverse x :=
  (E2.Inverse (H0 := solver q) (H1 := solver_constrain q) x ext).
Local Abbreviation MustBeEqual x y :=
  (E2.MustBeEqual (H1 := solver_constrain q) x y).

Lemma mod_eq_1 a : a mod q = 1 -> 1 mod q = 1.
Proof.
  intros H. destruct (Z.eq_dec q 0) as [->|Hq0]; [apply Z.mod_0_r|].
  destruct (Z.lt_trichotomy q 0) as [Hn|[E|Hp]]; [|contradiction|].
  - pose proof (Z.mod_neg_bound a q Hn). lia.
  - destruct (Z.eq_dec q 1) as [->|H1]; [rewrite Z.mod_1_r in H; lia|].
    apply Z.mod_1_l. lia.
Qed.

Lemma Inverse_unfold x :
  Inverse x =
    let n := (((A0 x * A0 x) mod q
               - ((A1 x * A1 x) mod q * (uSquare ext mod q)) mod q) mod q) in
    let z := Z.invmod n q in
    if (n * z) mod q =? 1
    then Some (mkE2 ((A0 x * z) mod q) (((0 mod q - A1 x) mod q * z) mod q))
    else None.
Proof.
  unfold E2.Inverse.
  cbn [bind ret Monad_option frontend.Mul frontend.Sub frontend.Inverse
       solver solver_constrain eval].
  cbv zeta. destruct (_ =? 1); reflexivity.
Qed.

Lemma norm_code x :
  ((A0 x * A0 x) mod q
   - ((A1 x * A1 x) mod q * (uSquare ext mod q)) mod q) mod q = norm x.
Proof. etransitivity; [strip | f_equal; ring]. Qed.

(** When [Inverse] succeeds, its result times the argument is one.  Over a
    prime modulus it fails exactly on the elements of norm zero. *)
Theorem Inverse_is_inverse (x : E2 Z) :
  (forall y, Inverse x = Some y -> eqv (mul x y) one)
  /\ (Z.prime q -> (Inverse x = None <-> norm x = 0)).
Proof.
  rewrite Inverse_unfold, norm_code. cbv zeta.
  destruct (Z.eqb_spec ((norm x * Z.invmod (norm x) q) mod q) 1) as [E|E].
  - split.
    + intros y Hy. injection Hy as <-.
      unfold Fp2.eqv. rewrite mul_values. cbn [A0 A1 Fp2.one].
      pose proof (mod_eq_1 _ E) as H1.
      split.
      * rewrite Zmod_mod, H1, <- E.
        etransitivity; [strip | symmetry; etransitivity; [strip|]].
        f_equal. ring.
      * rewrite Zmod_mod.
        etransitivity; [strip | symmetry; etransitivity; [strip|]].
        f_equal. ring.
    + intros Hp. split; [discriminate|]. intros Hn.
      rewrite Hn in E. rewrite Z.mul_0_l, Zmod_0_l in E. discriminate.
  - split; [discriminate|]. intros Hp. split; [|reflexivity]. intros _.
    destruct (Z.eq_dec (norm x) 0) as [|Hn]; [assumption|].
    exfalso. apply E. rewrite Z.mul_comm.
    apply Z.invmod_prime; [assumption|]. rewrite Zmod_mod. exact Hn.
Qed.

(** [MustBeEqual] succeeds exactly when the two elements have the same
    coordinates in the field. *)
Theorem MustBeEqual_iff (x y : E2 Z) :
  MustBeEqual x y = Some tt <-> eqv x y.
Proof.
  unfold E2.MustBeEqual, Fp2.eqv.
  cbn [bind ret Monad_option frontend.AssertIsEqual solver_constrain eval].
  assert (Hc : forall a b, (a - b) mod q = 0 <-> a mod q = b mod q).
  { intros a b. rewrite <- (add_mod_cancel q b (a - b)).
    replace (b + (a - b)) with a by ring. reflexivity. }
  destruct (Z.eqb_spec ((A0 x - A0 y) mod q) 0) as [E0|E0];
    destruct (Z.eqb_spec ((A1 x - A1 y) mod q) 0) as [E1|E1];
    rewrite Hc in E0, E1; split; try discriminate; try tauto.
Qed.

(** *** The steps of the Miller loop *)

Local Abbreviation DoubleStep p ctx :=
  (sw.DoubleStep (H0 := solver q) (H1 := solver_constrain q) p ctx).
Local Abbreviation AddMixedStep p a ctx :=
  (sw.AddMixedStep (H0 := solver q) p a ctx).

Lemma solver_Mul x y : E2.Mul (H0 := solver q) x y ext = Some (mul x y).
Proof. reflexivity. Qed.
Lemma solver_Add x y : E2.Add (H0 := solver q) x y = Some (add x y).
Proof. reflexivity. Qed.
Lemma solver_Sub x y : E2.Sub (H0 := solver q) x y = Some (sub x y).
Proof. reflexivity. Qed.
Lemma solver_Neg x : E2.Neg (H0 := solver q) x = Some (neg x).
Proof. reflexivity. Qed.
Lemma solver_MulByFp x c :
  E2.MulByFp (H0 := solver q) x (of_var c) = Some (scale x c).
Proof. reflexivity. Qed.

Lemma bind_Some {A B : Type} (a : A) (k : A -> option B) :
  bind (Some a) k = k a.
Proof. reflexivity. Qed.

Ltac run_solver :=
  repeat first
    [ rewrite solver_Mul | rewrite solver_Add | rewrite solver_Sub
    | rewrite solver_Neg | rewrite solver_MulByFp
    | rewrite bind_Some ];
  cbv beta.

(** The inverse of two that [DoubleStep] asks the API for. *)
Local Abbreviation twoInv := (Z.invmod (2 mod q) q).

Lemma DoubleStep_unfold (ate : Z) (b : E2 Z) (p : sw.G2Proj.t Z) :
  let X := sw.G2Proj.X p in
  let Y := sw.G2Proj.Y p in
  let Z := sw.G2Proj.Z p in
  let A := scale (mul X Y) twoInv in
  let B := mul Y Y in
  let C := mul Z Z in
  let D := add (add C C) C in
  let E := mul D b in
  let F := add (add E E) E in
  let G := scale (add B F) twoInv in
  let H := sub (mul (add Y Z) (add Y Z)) (add B C) in
  let I := sub E B in
  let J := mul X X in
  let EE := mul E E in
  let K := add (add EE EE) EE in
  DoubleStep p (sw.mkPairingContext ate ext b) =
    if (2 mod q * twoInv) mod q =? 1 then
      Some (sw.G2Proj.mk (mul (sub B F) A) (sub (mul G G) K) (mul B H),
            sw.mkLineEvaluation (neg H) (add (add J J) J) I)
    else None.
Proof.
  intros. unfold sw.DoubleStep.
  cbn [sw.Extension_ sw.BTwistCoeff].
  change (Constant 2) with (Some (2 mod q)). rewrite bind_Some.
  change (frontend.Inverse (of_var (2 mod q)))
    with (if (2 mod q * twoInv) mod q =? 1 then Some twoInv else None).
  destruct (_ =? 1); [|reflexivity].
  run_solver. reflexivity.
Qed.

Lemma AddMixedStep_unfold (ate : Z) (b : E2 Z) (p : sw.G2Proj.t Z)
  (a : sw.G2Affine.t Z) :
  let X1 := sw.G2Proj.X p in
  let Y1 := sw.G2Proj.Y p in
  let Z1 := sw.G2Proj.Z p in
  let x2 := sw.G2Affine.X a in
  let y2 := sw.G2Affine.Y a in
  let O := sub Y1 (mul y2 Z1) in
  let L := sub X1 (mul x2 Z1) in
  let C := mul O O in
  let D := mul L L in
  let E := mul L D in
  let F := mul Z1 C in
  let G := mul X1 D in
  let H := sub (add E F) (add G G) in
  let J := sub (mul x2 O) (mul L y2) in
  AddMixedStep p a (sw.mkPairingContext ate ext b) =
    Some (sw.G2Proj.mk (mul L H) (sub (mul (sub G H) O) (mul Y1 E)) (mul E Z1),
          sw.mkLineEvaluation L (neg O) J).
Proof.
  intros. unfold sw.AddMixedStep. cbn [sw.Extension_ sw.BTwistCoeff].
  run_solver. reflexivity.
Qed.

Lemma scale_as_mul x c : eqv (scale x c) (mul x (Fp2.of_Fp c)).
Proof. rewrite scale_values. fp2'. Qed.

Lemma half_plus_half :
  (2 mod q * twoInv) mod q = 1 ->
  eqv (add (Fp2.of_Fp twoInv) (Fp2.of_Fp twoInv)) one.
Proof.
  intros H. unfold Fp2.eqv, Fp2.of_Fp. rewrite add_values.
  cbn [A0 A1 Fp2.one]. split; [|reflexivity].
  rewrite Zmod_mod, (mod_eq_1 _ H), <- H.
  etransitivity; [strip | symmetry; etransitivity; [strip | f_equal; ring]].
Qed.

(** The doubling formulas, in the ring, for a half [T]. *)
Lemma doubling_on_curve X Y Z b T :
  eqv (add T T) one ->
  eqv (mul (mul Y Y) Z) (add (mul (mul X X) X) (mul b (mul (mul Z Z) Z))) ->
  let A := mul (mul X Y) T in
  let B := mul Y Y in
  let C := mul Z Z in
  let D := add (add C C) C in
  let E := mul D b in
  let F := add (add E E) E in
  let G := mul (add B F) T in
  let H := sub (mul (add Y Z) (add Y Z)) (add B C) in
  let EE := mul E E in
  let K := add (add EE EE) EE in
  let X3 := mul (sub B F) A in
  let Y3 := sub (mul G G) K in
  let Z3 := mul B H in
  eqv (mul (mul Y3 Y3) Z3)
      (add (mul (mul X3 X3) X3) (mul b (mul (mul Z3 Z3) Z3))).
Proof.
  intros HT HC A B C D E F G H EE K X3 Y3 Z3.
  assert (HX : eqv (mul (mul X X) X)
                 (sub (mul (mul Y Y) Z) (mul b (mul (mul Z Z) Z))))
    by (rewrite HC; ring).
  pose (U := add T T).
  pose (W := mul (sub B F) (mul Y T)).
  pose (Z3c := mul (mul Z3 Z3) Z3).
  (* the cube of X3 is a multiple of the cube of X *)
  transitivity (add (mul (mul (mul W W) W) (mul (mul X X) X)) (mul b Z3c));
    [|subst X3 A W Z3c; ring].
  rewrite HX.
  (* both sides, made homogeneous in T with U = 2 T = 1 *)
  transitivity
    (mul (mul (sub (mul G G) (mul K (mul U U)))
              (sub (mul G G) (mul K (mul U U)))) Z3).
  { subst U. rewrite HT. subst Y3. ring. }
  transitivity
    (add (mul (mul (mul (mul W W) W) U)
              (sub (mul (mul Y Y) Z) (mul b (mul (mul Z Z) Z))))
         (mul (mul b Z3c) (mul (mul U U) (mul U U)))).
  { subst U W Z3c Z3 G K EE H F E D C B. ring. }
  subst U. rewrite HT. ring.
Qed.

(** The mixed addition formulas, in the ring. *)
Lemma addition_on_curve X1 Y1 Z1 x2 y2 b :
  eqv (mul (mul Y1 Y1) Z1)
      (add (mul (mul X1 X1) X1) (mul b (mul (mul Z1 Z1) Z1))) ->
  eqv (mul y2 y2) (add (mul (mul x2 x2) x2) b) ->
  let O := sub Y1 (mul y2 Z1) in
  let L := sub X1 (mul x2 Z1) in
  let C := mul O O in
  let D := mul L L in
  let E := mul L D in
  let F := mul Z1 C in
  let G := mul X1 D in
  let H := sub (add E F) (add G G) in
  let X3 := mul L H in
  let Y3 := sub (mul (sub G H) O) (mul Y1 E) in
  let Z3 := mul E Z1 in
  eqv (mul (mul Y3 Y3) Z3)
      (add (mul (mul X3 X3) X3) (mul b (mul (mul Z3 Z3) Z3))).
Proof.
  intros HC1 HC2 O L C D E F G H X3 Y3 Z3.
  pose (M := mul (mul (mul D D) D) (sub (add E F) (add (add G G) G))).
  pose (c1l := mul (mul Y1 Y1) Z1).
  pose (c1r := add (mul (mul X1 X1) X1) (mul b (mul (mul Z1 Z1) Z1))).
  pose (c2l := mul y2 y2).
  pose (c2r := add (mul (mul x2 x2) x2) b).
  pose (cof1 := add M (mul (mul E E) E)).
  pose (cof2 := mul M (mul (mul Z1 Z1) Z1)).
  assert (Hd : eqv (sub (mul (mul Y3 Y3) Z3)
                        (add (mul (mul X3 X3) X3) (mul b (mul (mul Z3 Z3) Z3))))
                   (sub (mul cof1 (sub c1l c1r)) (mul cof2 (sub c2l c2r)))).
  { subst cof1 cof2 c1l c1r c2l c2r M Z3 Y3 X3 H G F E D C L O. ring. }
  assert (H0 : eqv (sub (mul cof1 (sub c1l c1r)) (mul cof2 (sub c2l c2r)))
                   zero).
  { subst c1l c2l. rewrite HC1, HC2. subst c1r c2r. ring. }
  rewrite H0 in Hd.
  transitivity
    (add (add (mul (mul X3 X3) X3) (mul b (mul (mul Z3 Z3) Z3)))
         (sub (mul (mul Y3 Y3) Z3)
              (add (mul (mul X3 X3) X3) (mul b (mul (mul Z3 Z3) Z3)))));
    [ring|].
  rewrite Hd. ring.
Qed.

Local Abbreviation on_curve := (Fp2.on_curve q ext).
Local Abbreviation on_curve_affine := (Fp2.on_curve_affine q ext).
Local Abbreviation line_at := (Fp2.line_at q ext).

(** [DoubleStep] asks for the inverse of two and so fails exactly when the
    modulus is even. *)
Theorem DoubleStep_fails_iff_even (ate : Z) (b : E2 Z) (p : sw.G2Proj.t Z) :
  1 < q ->
  (DoubleStep p (sw.mkPairingContext ate ext b) = None <-> Z.even q = true).
Proof.
  intros Hq. rewrite DoubleStep_unfold. cbv zeta.
  destruct (Z.eqb_spec ((2 mod q * twoInv) mod q) 1) as [E|E].
  - split; [discriminate|]. intros Hev. exfalso.
    apply Z.even_spec in Hev. destruct Hev as [m Hm].
    pose proof (Z.div_mod (2 mod q * twoInv) q ltac:(lia)) as H1.
    pose proof (Z.div_mod 2 q ltac:(lia)) as H2.
    rewrite E in H1.
    set (k := (2 mod q * twoInv) / q) in *. set (c := 2 / q) in *.
    set (two := 2 mod q) in *. set (t := twoInv) in *.
    assert (Hw : 2 * t - 1 = q * k + q * c * t).
    { replace two with (2 - q * c) in H1 by lia. lia. }
    rewrite Hm in Hw. lia.
  - split; [intros _|reflexivity].
    destruct (Z.even q) eqn:Hev; [reflexivity|]. exfalso. apply E.
    rewrite Z.mul_comm. apply Z.invmod_coprime; [lia|].
    unfold Z.coprime. rewrite Z.gcd_mod by lia.
    pose proof (Z.gcd_divide_r q 2) as Hd2.
    pose proof (Z.gcd_divide_l q 2) as [v Hv].
    pose proof (Z.gcd_nonneg q 2) as Hnn.
    apply Z.divide_pos_le in Hd2; [|lia].
    assert (Hcases : Z.gcd q 2 = 0 \/ Z.gcd q 2 = 1 \/ Z.gcd q 2 = 2) by lia.
    destruct Hcases as [H0|[H1|H2]]; [lia | assumption |].
    rewrite H2 in Hv. rewrite Hv, Z.even_mul in Hev.
    rewrite orb_true_r in Hev. discriminate.
Qed.

(** The point after [DoubleStep], by the doubling formulas. *)
Lemma DoubleStep_on_curve (ate : Z) (b : E2 Z)
  (p p' : sw.G2Proj.t Z) (l : sw.lineEvaluation Z) :
  DoubleStep p (sw.mkPairingContext ate ext b) = Some (p', l) ->
  on_curve b p -> on_curve b p'.
Proof.
  rewrite DoubleStep_unfold. cbv zeta.
  destruct (Z.eqb_spec ((2 mod q * twoInv) mod q) 1) as [E|E];
    [|discriminate].
  intros Hs HC.
  pose proof (f_equal (fun o => match o with Some r => fst r | None => p' end)
                Hs) as Hp.
  cbv beta iota in Hp. cbn [fst] in Hp. clear Hs. subst p'.
  unfold Fp2.on_curve in *. cbn [sw.G2Proj.X sw.G2Proj.Y sw.G2Proj.Z] in *.
  cbv zeta in *.
  rewrite !scale_as_mul.
  apply doubling_on_curve; [apply half_plus_half, E | exact HC].
Qed.

(** [DoubleStep] keeps the point on the twist curve
    Y^2 Z = X^3 + b Z^3, b being [BTwistCoeff]. *)
Theorem DoubleStep_stays_on_curve (ate : Z) (b : E2 Z)
  (p p' : sw.G2Proj.t Z) (l : sw.lineEvaluation Z) :
  DoubleStep p (sw.mkPairingContext ate ext b) = Some (p', l) ->
  on_curve b p -> on_curve b p'.
Proof. apply DoubleStep_on_curve. Qed.

(** The line that [DoubleStep] returns vanishes at the point that is
    doubled: it is a line through that point. *)
Theorem DoubleStep_line_through_point (ate : Z) (b : E2 Z)
  (p p' : sw.G2Proj.t Z) (l : sw.lineEvaluation Z) :
  DoubleStep p (sw.mkPairingContext ate ext b) = Some (p', l) ->
  on_curve b p ->
  eqv (line_at l (sw.G2Proj.X p) (sw.G2Proj.Y p) (sw.G2Proj.Z p)) zero.
Proof.
  rewrite DoubleStep_unfold. cbv zeta.
  destruct (_ =? 1); [|discriminate].
  intros Hs HC.
  pose proof (f_equal (fun o => match o with Some r => snd r | None => l end)
                Hs) as Hl.
  cbv beta iota in Hl. cbn [snd] in Hl. clear Hs. subst l.
  unfold Fp2.on_curve, Fp2.line_at in *. cbn [sw.r0 sw.r1 sw.r2] in *.
  cbv zeta in *.
  set (X := sw.G2Proj.X p) in *. set (Y := sw.G2Proj.Y p) in *.
  set (Z := sw.G2Proj.Z p) in *.
  transitivity
    (mul (add (add one one) one)
       (sub (add (mul (mul X X) X) (mul b (mul (mul Z Z) Z)))
            (mul (mul Y Y) Z))); [ring|].
  rewrite HC. ring.
Qed.

(** The point after [AddMixedStep], by the addition formulas. *)
Lemma AddMixedStep_on_curve (ate : Z) (b : E2 Z)
  (p p' : sw.G2Proj.t Z) (a : sw.G2Affine.t Z) (l : sw.lineEvaluation Z) :
  AddMixedStep p a (sw.mkPairingContext ate ext b) = Some (p', l) ->
  on_curve b p -> on_curve_affine b a -> on_curve b p'.
Proof.
  rewrite AddMixedStep_unfold. cbv zeta.
  intros Hs HC1 HC2. injection Hs as <- _.
  unfold Fp2.on_curve, Fp2.on_curve_affine in *.
  cbn [sw.G2Proj.X sw.G2Proj.Y sw.G2Proj.Z] in *. cbv zeta in *.
  apply addition_on_curve; assumption.
Qed.

(** [AddMixedStep] keeps the point on the twist curve when the point that
    is added lies on it as well. *)
Theorem AddMixedStep_stays_on_curve (ate : Z) (b : E2 Z)
  (p p' : sw.G2Proj.t Z) (a : sw.G2Affine.t Z) (l : sw.lineEvaluation Z) :
  AddMixedStep p a (sw.mkPairingContext ate ext b) = Some (p', l) ->
  on_curve b p -> on_curve_affine b a -> on_curve b p'.
Proof. apply AddMixedStep_on_curve. Qed.

(** [AddMixedStep] never fails, and the line that it returns vanishes at
    both points that are added. *)
Theorem AddMixedStep_line_through_points (ate : Z) (b : E2 Z)
  (p : sw.G2Proj.t Z) (a : sw.G2Affine.t Z) :
  exists p' l,
    AddMixedStep p a (sw.mkPairingContext ate ext b) = Some (p', l)
    /\ eqv (line_at l (sw.G2Proj.X p) (sw.G2Proj.Y p) (sw.G2Proj.Z p)) zero
    /\ eqv (line_at l (sw.G2Affine.X a) (sw.G2Affine.Y a) one) zero.
Proof.
  rewrite AddMixedStep_unfold. cbv zeta. eexists. eexists.
  split; [reflexivity|].
  unfold Fp2.line_at. cbn [sw.r0 sw.r1 sw.r2]. split; ring.
Qed.

(** [AddMixedStep] has no case for equal points: when the two points are
    the same point of the curve, it returns the triple (0, 0, 0), which is
    no point, and the zero line. *)
Theorem AddMixedStep_of_equal_points (ate : Z) (b : E2 Z)
  (p p' : sw.G2Proj.t Z) (a : sw.G2Affine.t Z) (l : sw.lineEvaluation Z) :
  AddMixedStep p a (sw.mkPairingContext ate ext b) = Some (p', l) ->
  eqv (sw.G2Proj.X p) (mul (sw.G2Affine.X a) (sw.G2Proj.Z p)) ->
  eqv (sw.G2Proj.Y p) (mul (sw.G2Affine.Y a) (sw.G2Proj.Z p)) ->
  (eqv (sw.G2Proj.X p') zero /\ eqv (sw.G2Proj.Y p') zero
   /\ eqv (sw.G2Proj.Z p') zero)
  /\ (eqv (sw.r0 l) zero /\ eqv (sw.r1 l) zero /\ eqv (sw.r2 l) zero).
Proof.
  rewrite AddMixedStep_unfold. cbv zeta.
  intros Hs HX HY. injection Hs as <- <-.
  cbn [sw.G2Proj.X sw.G2Proj.Y sw.G2Proj.Z sw.r0 sw.r1 sw.r2].
  rewrite HX, HY. split; (split; [ring|split; ring]).
Qed.

(** *** The point that the Miller loop carries *)
Section MillerLoopPoint.
Variable E12 : Type.
Variable E12_Mul : E12 -> E12 -> Extension -> option E12.
Variable E12_MulBy034 :
  E12 -> E2 Z -> E2 Z -> E2 Z -> Extension -> option E12.
Variables (P : sw.G1Affine.t Z) (Q : sw.G2Affine.t Z).
Variables (ate : Z) (b : E2 Z).

Local Abbreviation MillerLoop_body :=
  (sw.MillerLoop_body (H0 := solver q) (H1 := solver_constrain q)
     E12 E12_Mul E12_MulBy034 P Q (sw.mkPairingContext ate ext b)).
Local Abbreviation MillerLoop_loop :=
  (sw.MillerLoop_loop (H0 := solver q) (H1 := solver_constrain q)
     E12 E12_Mul E12_MulBy034 P Q (sw.mkPairingContext ate ext b)).

Lemma bind_Some_inv {A B : Type} (c : option A) (k : A -> option B) (y : B) :
  bind c k = Some y -> exists a, c = Some a /\ k a = Some y.
Proof.
  destruct c as [a|]; [|discriminate].
  intros Hk. exists a. split; [reflexivity|assumption].
Qed.

Lemma MillerLoop_body_on_curve (i : Z) (res res' : E12)
  (qProj qProj' : sw.G2Proj.t Z) :
  on_curve_affine b Q -> on_curve b qProj ->
  MillerLoop_body i (res, qProj) = Some (res', qProj') ->
  on_curve b qProj'.
Proof.
  intros HQ HC Hs. unfold sw.MillerLoop_body in Hs.
  cbn [sw.Extension_] in Hs.
  apply bind_Some_inv in Hs as (res1 & _ & Hs).
  apply bind_Some_inv in Hs as ([q1 l1] & HD & Hs).
  apply DoubleStep_on_curve in HD; [|exact HC].
  apply bind_Some_inv in Hs as (l_r0 & _ & Hs).
  apply bind_Some_inv in Hs as (l_r1 & _ & Hs).
  apply bind_Some_inv in Hs as (res2 & _ & Hs).
  destruct (_ =? 0).
  - injection Hs as _ <-. exact HD.
  - apply bind_Some_inv in Hs as ([q2 l2] & HA & Hs).
    apply AddMixedStep_on_curve in HA; [|exact HD|exact HQ].
    apply bind_Some_inv in Hs as (l_r0' & _ & Hs).
    apply bind_Some_inv in Hs as (l_r1' & _ & Hs).
    apply bind_Some_inv in Hs as (res3 & _ & Hs).
    injection Hs as _ <-. exact HA.
Qed.

Lemma MillerLoop_loop_on_curve (k : nat) (res res' : E12)
  (qProj qProj' : sw.G2Proj.t Z) :
  on_curve_affine b Q -> on_curve b qProj ->
  MillerLoop_loop k (res, qProj) = Some (res', qProj') ->
  on_curve b qProj'.
Proof.
  intros HQ. revert res qProj.
  induction k as [|k IH]; intros res qProj HC Hs.
  - injection Hs as _ <-. exact HC.
  - cbn [sw.MillerLoop_loop] in Hs.
    apply bind_Some_inv in Hs as ([res1 q1] & Hb & Hs).
    apply MillerLoop_body_on_curve in Hb; [|exact HQ|exact HC].
    exact (IH res1 q1 Hb Hs).
Qed.

Lemma start_on_curve :
  on_curve_affine b Q ->
  on_curve b (sw.G2Proj.mk (sw.G2Affine.X Q) (sw.G2Affine.Y Q)
                (mkE2 (1 mod q) (0 mod q))).
Proof.
  unfold Fp2.on_curve, Fp2.on_curve_affine.
  cbn [sw.G2Proj.X sw.G2Proj.Y sw.G2Proj.Z]. cbv zeta. intros HQ.
  assert (H1 : eqv (mkE2 (1 mod q) (0 mod q)) one).
  { unfold Fp2.eqv. cbn [A0 A1 Fp2.one]. rewrite !Zmod_mod. split; reflexivity. }
  rewrite H1. transitivity (mul (sw.G2Affine.Y Q) (sw.G2Affine.Y Q)); [ring|].
  rewrite HQ. ring.
Qed.

(** [MillerLoop] runs its loop from the point (Q.X : Q.Y : 1).  When Q is
    on the twist curve, the point [qProj] is on the curve after any number
    of turns of the loop that the API does not fail in. *)
Theorem MillerLoop_point_stays_on_curve (k : nat) (res res' : E12)
  (qProj' : sw.G2Proj.t Z) :
  on_curve_affine b Q ->
  MillerLoop_loop k
    (res, sw.G2Proj.mk (sw.G2Affine.X Q) (sw.G2Affine.Y Q)
            (mkE2 (1 mod q) (0 mod q)))
  = Some (res', qProj') ->
  on_curve b qProj'.
Proof.
  intros HQ Hs.
  exact (MillerLoop_loop_on_curve k res res' _ qProj' HQ (start_on_curve HQ) Hs).
Qed.

End MillerLoopPoint.

End Fp2Facts.

Lemma Inverse_is_inverse_witness :
  let ext := fields.mkExtension 5 in
  Fp2.eqv 7 (Fp2.mul 7 ext (fields.mkE2 1 1) (fields.mkE2 5 2)) Fp2.one.
Proof.
  intros ext.
  apply (proj1 (Inverse_is_inverse 7 ext (fields.mkE2 1 1))). reflexivity.
Defined.

Lemma DoubleStep_fails_iff_even_witness :
  let ext := fields.mkExtension 5 in
  let p := sw.G2Proj.mk (fields.mkE2 1 0) (fields.mkE2 3 0) (fields.mkE2 1 0) in
  sw.DoubleStep (H0 := frontend.solver 6) (H1 := frontend.solver_constrain 6)
    p (sw.mkPairingContext 1 ext (fields.mkE2 1 0))
  = None.
Proof.
  intros ext p.
  apply (proj2 (DoubleStep_fails_iff_even 6 ext 1 (fields.mkE2 1 0) p
                  ltac:(lia))).
  reflexivity.
Defined.

Lemma DoubleStep_stays_on_curve_witness :
  let ext := fields.mkExtension 5 in
  Fp2.on_curve 7 ext (fields.mkE2 1 0)
    (sw.G2Proj.mk (fields.mkE2 0 0) (fields.mkE2 5 0) (fields.mkE2 5 0)).
Proof.
  intros ext.
  apply (DoubleStep_stays_on_curve 7 ext 1 (fields.mkE2 1 0)
           (sw.G2Proj.mk (fields.mkE2 1 0) (fields.mkE2 3 0) (fields.mkE2 1 0))
           _
           (sw.mkLineEvaluation (fields.mkE2 1 0) (fields.mkE2 3 0)
              (fields.mkE2 1 0))).
  - reflexivity.
  - vm_compute. split; reflexivity.
Defined.

Lemma DoubleStep_line_through_point_witness :
  let ext := fields.mkExtension 5 in
  let l := sw.mkLineEvaluation (fields.mkE2 1 0) (fields.mkE2 3 0)
             (fields.mkE2 1 0) in
  Fp2.eqv 7
    (Fp2.line_at 7 ext l (fields.mkE2 1 0) (fields.mkE2 3 0) (fields.mkE2 1 0))
    Fp2.zero.
Proof.
  intros ext l.
  apply (DoubleStep_line_through_point 7 ext 1 (fields.mkE2 1 0)
           (sw.G2Proj.mk (fields.mkE2 1 0) (fields.mkE2 3 0) (fields.mkE2 1 0))
           (sw.G2Proj.mk (fields.mkE2 0 0) (fields.mkE2 5 0) (fields.mkE2 5 0))
           l).
  - reflexivity.
  - vm_compute. split; reflexivity.
Defined.

Lemma AddMixedStep_stays_on_curve_witness :
  let ext := fields.mkExtension 5 in
  Fp2.on_curve 7 ext (fields.mkE2 1 0)
    (sw.G2Proj.mk (fields.mkE2 3 0) (fields.mkE2 0 0) (fields.mkE2 1 0)).
Proof.
  intros ext.
  apply (AddMixedStep_stays_on_curve 7 ext 1 (fields.mkE2 1 0)
           (sw.G2Proj.mk (fields.mkE2 1 0) (fields.mkE2 3 0) (fields.mkE2 1 0))
           _
           (sw.G2Affine.mk (fields.mkE2 0 0) (fields.mkE2 1 0))
           (sw.mkLineEvaluation (fields.mkE2 1 0) (fields.mkE2 5 0)
              (fields.mkE2 6 0))).
  - reflexivity.
  - vm_compute. split; reflexivity.
  - vm_compute. split; reflexivity.
Defined.

Lemma AddMixedStep_of_equal_points_witness :
  let ext := fields.mkExtension 5 in
  let p := sw.G2Proj.mk (fields.mkE2 1 0) (fields.mkE2 3 0) (fields.mkE2 1 0) in
  let a := sw.G2Affine.mk (fields.mkE2 1 0) (fields.mkE2 3 0) in
  sw.AddMixedStep (H0 := frontend.solver 7) p a
    (sw.mkPairingContext 1 ext (fields.mkE2 1 0))
  = Some (sw.G2Proj.mk Fp2.zero Fp2.zero Fp2.zero,
          sw.mkLineEvaluation Fp2.zero Fp2.zero Fp2.zero)
  /\ Fp2.eqv 7 (sw.G2Proj.Z (sw.G2Proj.mk Fp2.zero Fp2.zero Fp2.zero))
       Fp2.zero.
Proof.
  intros ext p a. split; [reflexivity|].
  apply (AddMixedStep_of_equal_points 7 ext 1 (fields.mkE2 1 0) p
           (sw.G2Proj.mk Fp2.zero Fp2.zero Fp2.zero) a
           (sw.mkLineEvaluation Fp2.zero Fp2.zero Fp2.zero)).
  - reflexivity.
  - vm_compute. split; reflexivity.
  - vm_compute. split; reflexivity.
Defined.

Lemma MillerLoop_point_stays_on_curve_witness :
  let ext := fields.mkExtension 5 in
  Fp2.on_curve 7 ext (fields.mkE2 1 0)
    (sw.G2Proj.mk (fields.mkE2 3 0) (fields.mkE2 5 0) (fields.mkE2 3 0)).
Proof.
  intros ext.
  apply (MillerLoop_point_stays_on_curve 7 ext unit
           (fun _ _ _ => Some tt) (fun _ _ _ _ _ => Some tt)
           (sw.G1Affine.mk 1 3)
           (sw.G2Affine.mk (fields.mkE2 1 0) (fields.mkE2 3 0))
           1 (fields.mkE2 1 0) 2 tt tt).
  - vm_compute. split; reflexivity.
  - reflexivity.
Defined.

(** ** The Miller loop *)
Section MillerLoopFacts.
Import frontend fields.
Context {M : Type -> Type} {V : Type}
  `{Monad M} `{API M V} `{API_constrain M V}.
Variable E12 : Type.
Variable E12_SetOne : M E12.
Variable E12_Mul : E12 -> E12 -> Extension -> M E12.
Variable E12_MulBy034 : E12 -> E2 V -> E2 V -> E2 V -> Extension -> M E12.
Variables (P : sw.G1Affine.t V) (Q : sw.G2Affine.t V).
Variables (ext : Extension) (b : E2 V).

Local Abbreviation ctx ate := (sw.mkPairingContext ate ext b).
Local Abbreviation body := (sw.MillerLoop_body E12 E12_Mul E12_MulBy034 P Q).
Local Abbreviation loop := (sw.MillerLoop_loop E12 E12_Mul E12_MulBy034 P Q).

Lemma ateLoopBin_low (ate ate' : Z) (i : Z) :
  ate mod 2 ^ 63 = ate' mod 2 ^ 63 -> 0 <= i < 63 ->
  sw.ateLoopBin (ctx ate) i = sw.ateLoopBin (ctx ate') i.
Proof.
  intros Hm Hi. unfold sw.ateLoopBin, fr.big_Bit. cbn [sw.AteLoop].
  f_equal. rewrite !Z.mod_pow2_bits_low by lia.
  pose proof (f_equal (fun z => Z.testbit z i) Hm) as Hb.
  cbv beta in Hb. rewrite !Z.mod_pow2_bits_low in Hb by lia. exact Hb.
Qed.

Lemma MillerLoop_body_low (ate ate' : Z) (i : Z) :
  ate mod 2 ^ 63 = ate' mod 2 ^ 63 -> 0 <= i < 63 ->
  body (ctx ate) i = body (ctx ate') i.
Proof.
  intros Hm Hi. unfold sw.MillerLoop_body.
  rewrite (ateLoopBin_low ate ate' i Hm Hi). reflexivity.
Qed.

Lemma MillerLoop_loop_low (ate ate' : Z) (k : nat) :
  ate mod 2 ^ 63 = ate' mod 2 ^ 63 -> (k <= 63)%nat ->
  loop (ctx ate) k = loop (ctx ate') k.
Proof.
  intros Hm. induction k as [|k IH]; intros Hk; [reflexivity|].
  cbn [sw.MillerLoop_loop].
  rewrite (MillerLoop_body_low ate ate' (Z.of_nat k) Hm) by lia.
  rewrite IH by lia. reflexivity.
Qed.

(** The loop of [MillerLoop] starts at [len(ateLoopBin) - 2]: the top bit
    of [AteLoop] is never read, and two contexts whose [AteLoop] agree in
    the 63 low bits give the same circuit. *)
Theorem MillerLoop_ignores_top_bit (ate ate' : Z) :
  ate mod 2 ^ 63 = ate' mod 2 ^ 63 ->
  sw.MillerLoop E12 E12_SetOne E12_Mul E12_MulBy034 P Q (ctx ate)
  = sw.MillerLoop E12 E12_SetOne E12_Mul E12_MulBy034 P Q (ctx ate').
Proof.
  intros Hm. unfold sw.MillerLoop.
  rewrite (MillerLoop_loop_low ate ate' 63 Hm) by lia. reflexivity.
Qed.

End MillerLoopFacts.

Lemma MillerLoop_ignores_top_bit_witness :
  let ext := fields.mkExtension 5 in
  let P := sw.G1Affine.mk 1 3 in
  let Q := sw.G2Affine.mk (fields.mkE2 1 0) (fields.mkE2 3 0) in
  sw.MillerLoop (H0 := frontend.solver 7) (H1 := frontend.solver_constrain 7)
    unit (Some tt) (fun _ _ _ => Some tt) (fun _ _ _ _ _ => Some tt) P Q
    (sw.mkPairingContext 5 ext (fields.mkE2 1 0))
  = sw.MillerLoop (H0 := frontend.solver 7) (H1 := frontend.solver_constrain 7)
      unit (Some tt) (fun _ _ _ => Some tt) (fun _ _ _ _ _ => Some tt) P Q
      (sw.mkPairingContext (2 ^ 63 + 5) ext (fields.mkE2 1 0)).
Proof.
  intros ext P Q.
  apply (MillerLoop_ignores_top_bit (H0 := frontend.solver 7)
           (H1 := frontend.solver_constrain 7)
           unit (Some tt) (fun _ _ _ => Some tt) (fun _ _ _ _ _ => Some tt)
           P Q ext (fields.mkE2 1 0) 5 (2 ^ 63 + 5)).
  reflexivity.
Defined.
